(** * The caption summarisation pipeline of [main.py]

    A shallow embedding of the chunking and hierarchical summarisation code of
    [main] (lines 98-192 of [src/main.py]) together with the Python built-ins
    it relies on ([str.split], [str.join], [str.strip], [range], slicing,
    [try]/[except]), and the properties of the written specification stated
    over that embedding.

    Python strings are sequences of Unicode code points; a code point is a
    number of type [N].  The external collaborators (the YouTube tools and the
    Groq completion client) are functions over an abstract world state, so
    that their answers may depend on everything that happened before. *)

From Stdlib Require Import Strings.String Strings.Ascii Numbers.DecimalString.
From Stdlib Require Import List Arith NArith ZArith Lia Bool.
Import ListNotations.

(** ** Strings *)

Module Str.

Definition char := N.
Definition str := list char.

(** A literal of the source, one code point per character. *)
Definition lit (s : string) : str := map N_of_ascii (list_ascii_of_string s).

Definition nl : str := [10%N].
Definition space : str := [32%N].

(** [Py_UNICODE_ISSPACE]: the code points [str.split()] and [str.strip()]
    treat as whitespace. *)
Definition isspace (c : char) : bool :=
  ((9 <=? c) && (c <=? 13) || (28 <=? c) && (c <=? 32)
   || (c =? 133) || (c =? 160) || (c =? 5760)
   || (8192 <=? c) && (c <=? 8202)
   || (c =? 8232) || (c =? 8233) || (c =? 8239) || (c =? 8287)
   || (c =? 12288))%N.

(** [s.split()]: [cur] is the word being scanned, most recent character
    first; runs of whitespace separate words and never yield empty ones. *)
Fixpoint split_from (cur : str) (s : str) : list str :=
  match s with
  | [] => match cur with [] => [] | _ => [rev cur] end
  | c :: s' =>
      if isspace c
      then match cur with
           | [] => split_from [] s'
           | _ => rev cur :: split_from [] s'
           end
      else split_from (c :: cur) s'
  end.

Definition split (s : str) : list str := split_from [] s.

(** [sep.join(ws)] *)
Fixpoint join (sep : str) (ws : list str) : str :=
  match ws with
  | [] => []
  | w :: ws' =>
      match ws' with
      | [] => w
      | _ => w ++ sep ++ join sep ws'
      end
  end.

(** [s.lstrip()], [s.rstrip()] and [s.strip()] *)
Fixpoint lstrip (s : str) : str :=
  match s with
  | [] => []
  | c :: s' => if isspace c then lstrip s' else s
  end.

Definition rstrip (s : str) : str := rev (lstrip (rev s)).

Definition strip (s : str) : str := rstrip (lstrip s).

(** [str(i)] for a non-negative integer *)
Definition str_of_nat (n : nat) : str :=
  lit (NilZero.string_of_uint (Nat.to_uint n)).

(** [xs[i:j]] for [0 <= i] and [0 <= j] *)
Definition slice {A} (i j : nat) (xs : list A) : list A :=
  firstn (j - i) (skipn i xs).

(** [xs[:j]] for any integer [j]: a negative [j] counts from the end, and
    a bound past either end is clamped. *)
Definition slice_to {A} (j : Z) (xs : list A) : list A :=
  if (0 <=? j)%Z
  then firstn (Z.to_nat j) xs
  else firstn (length xs - Z.to_nat (- j)) xs.

(** [s.startswith(t)] and [t in s] *)
Fixpoint starts_with (t s : str) : bool :=
  match t, s with
  | [], _ => true
  | _ :: _, [] => false
  | a :: t', b :: s' => (a =? b)%N && starts_with t' s'
  end.

Fixpoint contains (t s : str) : bool :=
  starts_with t s
  || match s with
     | [] => false
     | _ :: s' => contains t s'
     end.

(** A word: non-empty and free of whitespace. *)
Definition word (w : str) : Prop := w <> [] /\ Forall (fun c => isspace c = false) w.

Definition blank (s : str) : Prop := Forall (fun c => isspace c = true) s.

(** [t] is [s] with its leading and trailing whitespace removed: what was
    removed is whitespace, and [t] neither begins nor ends with whitespace. *)
Definition trimmed (s t : str) : Prop :=
  (exists l r, s = l ++ t ++ r /\ blank l /\ blank r)
  /\ (forall c t', t = c :: t' -> isspace c = false)
  /\ (forall c t', t = t' ++ [c] -> isspace c = false).

(** The least [k] with [n <= k * d], for [d > 0]. *)
Definition ceil_div (n d : nat) : nat := (n + d - 1) / d.

End Str.
Import Str.

(** ** Python built-ins that can raise *)

Module Py.

(** The value of an expression, or the text [str(e)] of the exception it
    raised.  Every exception of the model ([ValueError], [IndexError], a
    failure of the completion client) is an instance of [Exception]. *)
Inductive Result (A : Type) : Type :=
| Ok (a : A)
| Exn (e : str).
Arguments Ok {A} a.
Arguments Exn {A} e.

(** The elements of [range(i, stop, step)] for [step > 0]; [fuel] bounds the
    number of elements. *)
Fixpoint range_from (fuel i stop step : nat) : list nat :=
  match fuel with
  | 0 => []
  | S fuel' => if i <? stop then i :: range_from fuel' (i + step) stop step else []
  end.

(** [range(start, stop, step)] with [step >= 0]; a zero step is a
    [ValueError]. *)
Definition range (start stop step : nat) : Result (list nat) :=
  if step =? 0
  then Exn (lit "range() arg 3 must not be zero")
  else Ok (range_from (stop - start) start stop step).

(** [xs[i]] for [i >= 0]; an index past the end is an [IndexError]. *)
Definition index {A} (xs : list A) (i : nat) : Result A :=
  match nth_error xs i with
  | Some x => Ok x
  | None => Exn (lit "list index out of range")
  end.

(** Truth value of an [Optional[str]]: [None] and [""] are false. *)
Definition truthy (s : option str) : bool :=
  match s with
  | None => false
  | Some [] => false
  | Some (_ :: _) => true
  end.

End Py.
Import Py.

(** ** The report configuration *)

(** The dictionary returned by [get_video_summarizer]. *)
Record VideoSummarizer : Type := {
  vs_model : str;
  vs_description : str;
  vs_instructions : list str;
  vs_add_to_system_prompt : str;
  vs_markdown : bool;
  vs_add_datetime_to_instructions : bool;
  vs_debug_mode : bool
}.

(** The value of [dedent] on the report template: the twelve leading blanks
    of every line are removed, and the last line, which holds only blanks,
    becomes empty. *)
Definition report_format : str :=
  nl ++ lit "<report_format>" ++ nl
  ++ lit "## Video Title with Link" ++ nl
  ++ lit "{this is the markdown link to the video}" ++ nl
  ++ nl
  ++ lit "### Overview" ++ nl
  ++ lit "{give a brief introduction of the video and why the user should read this report}" ++ nl
  ++ lit "{make this section engaging and create a hook for the reader}" ++ nl
  ++ nl
  ++ lit "### Section 1" ++ nl
  ++ lit "{break the report into sections}" ++ nl
  ++ lit "{provide details/facts/processes in this section}" ++ nl
  ++ nl
  ++ lit "... more sections as necessary..." ++ nl
  ++ nl
  ++ lit "### Takeaways" ++ nl
  ++ lit "{provide key takeaways from the video}" ++ nl
  ++ nl
  ++ lit "Report generated on: {Month Date, Year (hh:mm AM/PM)}" ++ nl
  ++ lit "</report_format>" ++ nl.

Definition get_video_summarizer (model : str) (debug_mode : bool) : VideoSummarizer :=
  {| vs_model := model;
     vs_description :=
       lit "You are a Senior NYT Reporter tasked with writing a summary of a youtube video.";
     vs_instructions :=
       [ lit "You will be provided with: ";
         lit "  1. Youtube video link and information about the video";
         lit "  2. Pre-processed summaries from junior researchers.";
         lit "Carefully process the information and think about the contents.";
         lit "Then generate a final New York Times-worthy report in a structured format.";
         lit "Make your report engaging, informative, and well-structured.";
         lit "Break the report into sections and provide key takeaways at the end.";
         lit "Make sure the title is a markdown link to the video.";
         lit "Give relevant titles to sections and provide details/facts/processes in each section.";
         lit "REMEMBER: you are writing for the New York Times, so the quality of the report is important." ];
     vs_add_to_system_prompt := report_format;
     vs_markdown := true;
     vs_add_datetime_to_instructions := true;
     vs_debug_mode := debug_mode |}.

(** [truncate_text(text, words)] *)
Definition truncate_text (text : str) (words : Z) : str :=
  join space (slice_to words (split text)).

(** ** Collaborators, events and the pipeline monad *)

(** What [client.invoke] does: it returns a response whose [content] is a
    string, or it raises an exception [e] with text [str(e)]. *)
Inductive Response : Type :=
| Content (content : str)
| Raised (detail : str).

(** The external collaborators.  [World] is whatever state they share; each
    call may read and change it.  The video data is taken as the text it has
    inside an f-string. *)
Class Collaborators (World : Type) : Type := {
  get_youtube_video_data : str -> World -> str * World;
  get_youtube_video_captions : str -> World -> option str * World;
  client_invoke : str -> str -> World -> Response * World
}.

(** What a run does that is visible from outside, in order: the completion
    requests with their outcome, and the texts it displays with [st.write]
    and [markdown] (the other widgets are not modelled: the containers of
    lines 107, 112 and 119 that echo the URL, the video data and the
    captions, the status labels and the spinners leave no event). *)
Inductive Event : Type :=
| Invoke (prompt model : str) (r : Response)
| Shown (text : str).

(** The local variables at the end of [main]'s summarisation block. *)
Inductive Outcome : Type :=
| CouldNotParse
| Summarized (chunks : list str) (chunk_summaries : list str) (summary : str).

Section Pipeline.

Context {World : Type} {collab : Collaborators World}.

(** The state a run threads: the collaborators' world and the events so far. *)
Record PState : Type := { world : World; log : list Event }.

(** A computation that may raise; what was logged before the exception stays
    logged. *)
Definition M (A : Type) : Type := PState -> Result A * PState.

Definition ret {A} (a : A) : M A := fun st => (Ok a, st).

Definition bind {A B} (m : M A) (k : A -> M B) : M B :=
  fun st =>
    match m st with
    | (Ok a, st') => k a st'
    | (Exn e, st') => (Exn e, st')
    end.

Definition lift {A} (r : Result A) : M A := fun st => (r, st).

(** [try: m  except Exception as e: handler(str(e))] *)
Definition try_except {A} (m : M A) (handler : str -> M A) : M A :=
  fun st =>
    match m st with
    | (Ok a, st') => (Ok a, st')
    | (Exn e, st') => handler e st'
    end.

Local Notation "x <- m ;; k" := (bind m (fun x => k))
  (at level 61, m at next level, right associativity).
Local Notation "m ;;; k" := (bind m (fun _ => k))
  (at level 61, right associativity).

(** [for x in xs: s = body(s, x)] *)
Fixpoint for_each {A S} (xs : list A) (body : S -> A -> M S) (s : S) : M S :=
  match xs with
  | [] => ret s
  | x :: xs' => s' <- body s x ;; for_each xs' body s'
  end.

Definition fetch_video_data (url : str) : M str :=
  fun st =>
    let (d, w) := get_youtube_video_data url (world st) in
    (Ok d, {| world := w; log := log st |}).

Definition fetch_video_captions (url : str) : M (option str) :=
  fun st =>
    let (c, w) := get_youtube_video_captions url (world st) in
    (Ok c, {| world := w; log := log st |}).

(** [client.invoke(input=prompt, model=model).content] *)
Definition invoke (prompt model : str) : M str :=
  fun st =>
    let (r, w) := client_invoke prompt model (world st) in
    let st' := {| world := w; log := log st ++ [Invoke prompt model r] |} in
    match r with
    | Content c => (Ok c, st')
    | Raised e => (Exn e, st')
    end.

(** [st.write(text)] and [container.markdown(text)] *)
Definition show (text : str) : M unit :=
  fun st => (Ok tt, {| world := world st; log := log st ++ [Shown text] |}).

Definition sorry_message : str :=
  lit "Sorry, could not parse the video. Please try again or use a different video.".

Definition chunk_prompt_prefix : str := lit "Summarize the following video captions:" ++ nl.
Definition final_prompt_prefix : str := lit "Summarize the following captions:" ++ nl.

(** Lines 134-136: one turn of the chunking loop. *)
Definition chunk_step (words : list str) (chunker_limit : nat)
    (acc : nat * list str) (i : nat) : nat * list str :=
  let (num_chunks, chunks) := acc in
  (num_chunks + 1, chunks ++ [join space (slice i (i + chunker_limit) words)]).

(** Lines 129-136: the chunking loop. *)
Definition chunk_words (words : list str) (chunker_limit : nat)
  : Result (nat * list str) :=
  match range 0 (length words) chunker_limit with
  | Ok idxs => Ok (fold_left (chunk_step words chunker_limit) idxs (0, []))
  | Exn e => Exn e
  end.

(** Lines 141-157: the body of the loop over the chunks. *)
Definition summarize_chunk (video_data llm_model : str) (chunks : list str)
    (chunk_summaries : list str) (i : nat) : M (list str) :=
  chunk <- lift (index chunks i) ;;
  let chunk_info := lit "Video data: " ++ video_data ++ nl ++ nl ++ chunk ++ nl ++ nl in
  chunk_summary <-
    try_except
      (chunk_i <- lift (index chunks i) ;;
       let prompt := chunk_prompt_prefix ++ chunk_i in
       content <- invoke prompt llm_model ;;
       ret (strip content))
      (fun e => ret (lit "Error during API call: " ++ e)) ;;
  show chunk_summary ;;;
  ret (chunk_summaries ++ [chunk_summary]).

(** Line 166: the text added for the [i]-th summary, and line 167. *)
Definition labelled_summary (i : nat) (chunk_summary : str) : str :=
  (lit "Chunk " ++ str_of_nat i ++ lit ":" ++ nl ++ nl ++ chunk_summary ++ nl ++ nl)
  ++ (lit "---" ++ nl ++ nl).

(** Lines 165-167: [enumerate(chunk_summaries, start=i)] appended to
    [video_info]. *)
Fixpoint add_summaries (video_info : str) (i : nat) (chunk_summaries : list str) : str :=
  match chunk_summaries with
  | [] => video_info
  | chunk_summary :: rest =>
      add_summaries (video_info ++ labelled_summary i chunk_summary) (S i) rest
  end.

(** Lines 162-164: the head of [video_info]. *)
Definition video_info_head (_url video_data : str) : str :=
  (lit "Video URL: " ++ _url ++ nl ++ nl)
  ++ (lit "Video Data: " ++ video_data ++ nl ++ nl)
  ++ (lit "Summaries:" ++ nl ++ nl).

(** Lines 159-176: the final summary over the chunk summaries. *)
Definition final_summary (_url video_data llm_model : str)
    (chunk_summaries : list str) : M str :=
  let summary : str := [] in
  let video_info := add_summaries (video_info_head _url video_data) 1 chunk_summaries in
  summary <-
    try_except
      (let prompt := final_prompt_prefix ++ video_info in
       content <- invoke prompt llm_model ;;
       ret (summary ++ strip content))
      (fun e => ret (lit "Error during final summary generation: " ++ e)) ;;
  show summary ;;;
  ret summary.

(** Lines 178-192: the summary asked directly over the captions. *)
Definition direct_summary (_url video_data llm_model video_captions : str) : M str :=
  let summary : str := [] in
  let video_info :=
    (lit "Video URL: " ++ _url ++ nl ++ nl)
    ++ (lit "Video Data: " ++ video_data ++ nl ++ nl)
    ++ (lit "Captions: " ++ video_captions ++ nl ++ nl) in
  summary <-
    try_except
      (let prompt := chunk_prompt_prefix ++ video_captions in
       content <- invoke prompt llm_model ;;
       ret (summary ++ strip content))
      (fun e => ret (lit "Error during summary generation: " ++ e)) ;;
  show summary ;;;
  ret summary.

(** Lines 122-192, with [video_summarizer] (line 102) in scope. *)
Definition summarize_captions (video_summarizer : VideoSummarizer)
    (_url llm_model : str) (chunker_limit : nat)
    (video_data : str) (video_captions : option str) : M Outcome :=
  match video_captions with
  | Some captions =>
      if negb (truthy video_captions)
      then show sorry_message ;;; ret CouldNotParse
      else
        let words := split captions in
        chunked <- lift (chunk_words words chunker_limit) ;;
        let (num_chunks, chunks) := (chunked : nat * list str) in
        if 1 <? num_chunks
        then
          idxs <- lift (range 0 num_chunks 1) ;;
          chunk_summaries <- for_each idxs (summarize_chunk video_data llm_model chunks) [] ;;
          summary <- final_summary _url video_data llm_model chunk_summaries ;;
          ret (Summarized chunks chunk_summaries summary)
        else
          summary <- direct_summary _url video_data llm_model captions ;;
          ret (Summarized chunks [] summary)
  | None => show sorry_message ;;; ret CouldNotParse
  end.

(** Lines 98-192: what [main] does once a video URL is set.  Of the two
    status blocks of lines 104-120 only the fetches are kept. *)
Definition summarize_video (_url llm_model : str) (chunker_limit : nat) : M Outcome :=
  let video_summarizer := get_video_summarizer llm_model true in
  video_data <- fetch_video_data _url ;;
  video_captions <- fetch_video_captions _url ;;
  summarize_captions video_summarizer _url llm_model chunker_limit video_data video_captions.

(** A run from a fresh log. *)
Definition run (_url llm_model : str) (chunker_limit : nat) (w : World)
  : Result Outcome * PState :=
  summarize_video _url llm_model chunker_limit {| world := w; log := [] |}.

(** What the two fetches of a run return, and the world they leave. *)
Definition video_data_of (_url : str) (w : World) : str :=
  fst (get_youtube_video_data _url w).

Definition captions_of (_url : str) (w : World) : option str :=
  fst (get_youtube_video_captions _url (snd (get_youtube_video_data _url w))).

Definition world_after_fetch (_url : str) (w : World) : World :=
  snd (get_youtube_video_captions _url (snd (get_youtube_video_data _url w))).

(** The completion requests of a log, in order. *)
Definition invocations (evs : list Event) : list (str * str * Response) :=
  flat_map (fun ev => match ev with
                      | Invoke p m r => [(p, m, r)]
                      | Shown _ => []
                      end) evs.

Definition prompts (evs : list Event) : list str :=
  map (fun x => fst (fst x)) (invocations evs).

Definition responses (evs : list Event) : list Response :=
  map snd (invocations evs).


(** What lines 148-153 store for a chunk, by outcome of the request. *)
Definition chunk_result (r : Response) : str :=
  match r with
  | Content c => strip c
  | Raised e => lit "Error during API call: " ++ e
  end.

(** What lines 169-174 and lines 185-190 store as the summary. *)
Definition final_result (r : Response) : str :=
  match r with
  | Content c => strip c
  | Raised e => lit "Error during final summary generation: " ++ e
  end.

Definition direct_result (r : Response) : str :=
  match r with
  | Content c => strip c
  | Raised e => lit "Error during summary generation: " ++ e
  end.

(** The loop of lines 140-157 unrolled over the chunks: the summaries, the
    events and the world it ends in. *)
Fixpoint chunk_trace (llm_model : str) (chunks : list str) (w : World)
  : list str * list Event * World :=
  match chunks with
  | [] => ([], [], w)
  | chunk :: rest =>
      let (r, w1) := client_invoke (chunk_prompt_prefix ++ chunk) llm_model w in
      let '(ss, evs, w2) := chunk_trace llm_model rest w1 in
      (chunk_result r :: ss,
       Invoke (chunk_prompt_prefix ++ chunk) llm_model r :: Shown (chunk_result r) :: evs,
       w2)
  end.

End Pipeline.

(** ** A scripted collaborator

    A test double: the video data and the captions are fixed, and the
    completion client answers from a script, one entry per request; once the
    script is used up every request fails. *)

Definition scripted (video_data : str) (video_captions : option str)
  : Collaborators (list Response) :=
  {| get_youtube_video_data := fun _ w => (video_data, w);
     get_youtube_video_captions := fun _ w => (video_captions, w);
     client_invoke := fun _ _ w =>
       match w with
       | [] => (Raised (lit "script exhausted"), [])
       | r :: w' => (r, w')
       end |}.

(** A client that answers every request with the prompt it was given. *)
Definition echoing (video_data : str) (video_captions : option str)
  : Collaborators nat :=
  {| get_youtube_video_data := fun _ w => (video_data, w);
     get_youtube_video_captions := fun _ w => (video_captions, w);
     client_invoke := fun prompt _ w => (Content prompt, S w) |}.

(** ** The session and the script run *)

(** [st.session_state] as far as [main] uses it: a dictionary from string
    keys to strings, kept in insertion order. *)
Module Dict.

Definition dict : Type := list (str * str).

Definition str_eqb (a b : str) : bool :=
  if list_eq_dec N.eq_dec a b then true else false.

(** [d.get(k)]: the value stored under [k], if any. *)
Fixpoint get (k : str) (d : dict) : option str :=
  match d with
  | [] => None
  | (k', v) :: d' => if str_eqb k' k then Some v else get k d'
  end.

(** [d[k] = v]: an existing key keeps its place. *)
Fixpoint set (k v : str) (d : dict) : dict :=
  match d with
  | [] => [(k, v)]
  | (k', v') :: d' =>
      if str_eqb k' k then (k, v) :: d' else (k', v') :: set k v d'
  end.

End Dict.

(** What the sidebar widgets return in one run of the script. *)
Record Widgets : Type := {
  selected_model : str;
  slider_value : nat;
  video_url_input : str;
  generate_report : bool;
  intro_button : bool;
  agents_button : bool;
  accessible_button : bool;
  restart_button : bool
}.

(** How a run of the script ends: it runs to its end or returns, or
    [st.rerun()] stops it and asks for another run. *)
Inductive Control : Type :=
| Completed
| Rerun.

Definition llm_model_key : str := lit "llm_model".
Definition youtube_url_key : str := lit "youtube_url".

Definition intro_url : str := lit "https://youtu.be/zjkBMFhNj_g".
Definition agents_url : str := lit "https://youtu.be/pBBe1pk8hf4".
Definition accessible_url : str := lit "https://youtu.be/c3b-JASoPi0".

Definition provide_url_message : str :=
  lit "Please provide a video URL or click on one of the trending videos.".

(** Lines 68-72: the session follows the select box; a changed model asks
    for a rerun. *)
Definition track_model (llm_model : str) (session : Dict.dict) : bool * Dict.dict :=
  match Dict.get llm_model_key session with
  | None => (false, Dict.set llm_model_key llm_model session)
  | Some stored =>
      if negb (Dict.str_eqb stored llm_model)
      then (true, Dict.set llm_model_key llm_model session)
      else (false, session)
  end.

(** Lines 85-96: the buttons that set the video URL, in the order of the
    script. *)
Definition press_buttons (ui : Widgets) (session : Dict.dict) : Dict.dict :=
  let session :=
    if generate_report ui
    then Dict.set youtube_url_key (video_url_input ui) session else session in
  let session :=
    if intro_button ui then Dict.set youtube_url_key intro_url session else session in
  let session :=
    if agents_button ui then Dict.set youtube_url_key agents_url session else session in
  if accessible_button ui
  then Dict.set youtube_url_key accessible_url session else session.

Section Script.

Context {World : Type} {collab : Collaborators World}.

(** Lines 197-199: the end of the script. *)
Definition finish (ui : Widgets) (st : @PState World) : Result Control * @PState World :=
  let st := {| world := world st; log := log st ++ [Shown (lit "---")] |} in
  if restart_button ui then (Ok Rerun, st) else (Ok Completed, st).

(** Lines 63-199: one run of [main] over the session and the widgets'
    values.  The texts of [st.sidebar.markdown] are logged like the others;
    the [return] of line 124 ends the run before the end of the script. *)
Definition main (ui : Widgets) (session : Dict.dict) (st : PState)
  : Result Control * Dict.dict * PState :=
  let llm_model := selected_model ui in
  let (rerun, session) := track_model llm_model session in
  if rerun then (Ok Rerun, session, st)
  else
    let chunker_limit := slider_value ui in
    let session := press_buttons ui session in
    let st := {| world := world st;
                 log := log st ++ [Shown (lit "## Trending Videos")] |} in
    match Dict.get youtube_url_key session with
    | Some _url =>
        match summarize_video _url llm_model chunker_limit st with
        | (Ok CouldNotParse, st') => (Ok Completed, session, st')
        | (Ok (Summarized _ _ _), st') =>
            let (c, st'') := finish ui st' in (c, session, st'')
        | (Exn e, st') => (Exn e, session, st')
        end
    | None =>
        let st := {| world := world st;
                     log := log st ++ [Shown provide_url_message] |} in
        let (c, st') := finish ui st in (c, session, st')
    end.

End Script.

(** The texts of the [Shown] events of a log, in order. *)
Definition shown (evs : list Event) : list str :=
  flat_map (fun ev => match ev with
                      | Invoke _ _ _ => []
                      | Shown text => [text]
                      end) evs.

(** The inputs of the examples: one of the trending videos of the sidebar,
    the first model of the select box, and a small video-data text. *)
Definition demo_url : str := lit "https://youtu.be/zjkBMFhNj_g".
Definition demo_model : str := lit "llama3-8b-8192".
Definition demo_data : str := lit "{'title': 'Intro to Large Language Models'}".

(** Captions of 1001 words, one more than the smallest limit the slider
    offers, and a run over them with that limit and three scripted answers. *)
Definition long_captions : str := join space (repeat (lit "word") 1001).

Definition long_run : Result Outcome * PState :=
  run (collab := scripted demo_data (Some long_captions)) demo_url demo_model 1000
    [Content (lit "first part"); Content (lit "second part"); Content (lit "report")].

(** Captions that hold one blank and nothing else, run with the default
    limit. *)
Definition blank_run : Result Outcome * PState :=
  run (collab := scripted demo_data (Some (lit " "))) demo_url demo_model 4500
    [Content (lit "report")].

(** * Properties *)

(** ** The built-ins on small inputs *)

Example split_drops_all_whitespace :
  split (lit "  a b" ++ nl ++ lit "c ") = [lit "a"; lit "b"; lit "c"].
Proof. reflexivity. Qed.

Example strip_keeps_inner_whitespace :
  strip (nl ++ lit "  a b " ++ nl) = lit "a b".
Proof. reflexivity. Qed.

Example join_with_blank : join space [lit "a"; lit "b"; lit "c"] = lit "a b c".
Proof. reflexivity. Qed.

Example range_with_step : range 0 5 2 = Ok [0; 2; 4].
Proof. reflexivity. Qed.

Example range_past_the_end : range 0 3 7 = Ok [0].
Proof. reflexivity. Qed.

Example str_of_nat_decimal : str_of_nat 12 = lit "12".
Proof. reflexivity. Qed.

Example truncate_text_keeps_first_words :
  truncate_text (lit " a  b c ") 2 = lit "a b".
Proof. reflexivity. Qed.

Example truncate_text_counts_from_the_end :
  truncate_text (lit " a  b c ") (-1) = lit "a b".
Proof. reflexivity. Qed.

Example labelled_summary_text :
  labelled_summary 2 (lit "s")
  = lit "Chunk 2:" ++ nl ++ nl ++ lit "s" ++ nl ++ nl ++ lit "---" ++ nl ++ nl.
Proof. reflexivity. Qed.

(** ** Strings *)

Section StrFacts.

Lemma split_from_nonspace (w cur s : str) :
  Forall (fun c => isspace c = false) w ->
  split_from cur (w ++ s) = split_from (rev w ++ cur) s.
Proof.
  revert cur. induction w as [|c w IH]; intros cur Hw; simpl.
  - reflexivity.
  - inversion Hw as [|? ? Hc Hw']; subst. rewrite Hc.
    rewrite IH by assumption. simpl. now rewrite <- app_assoc.
Qed.

Lemma split_from_words (s cur : str) :
  Forall (fun c => isspace c = false) cur ->
  Forall word (split_from cur s).
Proof.
  assert (Hrev : forall c cur, Forall (fun c => isspace c = false) (c :: cur) ->
                               word (rev (c :: cur))).
  { intros c cur' Hf. split.
    - simpl. intros E. now apply app_eq_nil in E as [_ E].
    - now apply Forall_rev. }
  revert cur. induction s as [|c s IH]; intros cur Hcur; simpl.
  - destruct cur; constructor; auto.
  - destruct (isspace c) eqn:Hc.
    + destruct cur.
      * apply IH. constructor.
      * constructor; [now apply Hrev | apply IH; constructor].
    + apply IH. now constructor.
Qed.

Lemma split_words (s : str) : Forall word (split s).
Proof. apply split_from_words. constructor. Qed.

Lemma split_word_then (w s : str) :
  word w -> split (w ++ space ++ s) = w :: split s.
Proof.
  intros [Hne Hw]. unfold split.
  rewrite split_from_nonspace by assumption. rewrite app_nil_r. simpl.
  destruct (rev w) eqn:E.
  - exfalso. apply Hne. rewrite <- (rev_involutive w), E. reflexivity.
  - rewrite <- E, rev_involutive. reflexivity.
Qed.

Lemma split_word (w : str) : word w -> split w = [w].
Proof.
  intros [Hne Hw]. unfold split.
  rewrite <- (app_nil_r w) at 1.
  rewrite split_from_nonspace by assumption. rewrite app_nil_r. simpl.
  destruct (rev w) eqn:E.
  - exfalso. apply Hne. rewrite <- (rev_involutive w), E. reflexivity.
  - rewrite <- E, rev_involutive. reflexivity.
Qed.

(** Joining words with a blank and splitting again gives the words back. *)
Lemma split_join (ws : list str) :
  Forall word ws -> split (join space ws) = ws.
Proof.
  induction ws as [|w ws IH]; intros Hws.
  - reflexivity.
  - inversion Hws as [|? ? Hw Hws']; subst.
    destruct ws as [|w' ws'].
    + now apply split_word.
    + change (join space (w :: w' :: ws'))
        with (w ++ space ++ join space (w' :: ws')).
      rewrite split_word_then by assumption. f_equal. now apply IH.
Qed.

Lemma lstrip_decompose (s : str) : exists l, s = l ++ lstrip s /\ blank l.
Proof.
  induction s as [|c s [l [E Hl]]]; simpl.
  - exists []. split; [reflexivity | constructor].
  - destruct (isspace c) eqn:Hc.
    + exists (c :: l). split; [simpl; now f_equal | now constructor].
    + exists []. split; [reflexivity | constructor].
Qed.

Lemma lstrip_head (s : str) c t : lstrip s = c :: t -> isspace c = false.
Proof.
  induction s as [|a s IH]; simpl; [discriminate|].
  destruct (isspace a) eqn:Ha; [assumption|].
  intros E. injection E as <- _. assumption.
Qed.

Lemma rstrip_decompose (s : str) : exists r, s = rstrip s ++ r /\ blank r.
Proof.
  unfold rstrip. destruct (lstrip_decompose (rev s)) as [l [E Hl]].
  exists (rev l). split.
  - rewrite <- rev_app_distr, <- E. now rewrite rev_involutive.
  - now apply Forall_rev.
Qed.

Lemma rstrip_last (s : str) c t : rstrip s = t ++ [c] -> isspace c = false.
Proof.
  unfold rstrip. intros E.
  apply (f_equal (@rev char)) in E.
  rewrite rev_involutive, rev_app_distr in E. simpl in E.
  now apply lstrip_head in E.
Qed.

(** [strip] removes exactly the whitespace at both ends. *)
Lemma strip_trimmed (s : str) : trimmed s (strip s).
Proof.
  unfold strip.
  destruct (lstrip_decompose s) as [l [El Hl]].
  destruct (rstrip_decompose (lstrip s)) as [r [Er Hr]].
  repeat split.
  - exists l, r. split; [|split; assumption].
    rewrite <- Er. exact El.
  - intros c t' E. rewrite E in Er. simpl in Er.
    now apply lstrip_head in Er.
  - intros c t' E. now apply rstrip_last in E.
Qed.

Lemma starts_with_app (t r : str) : starts_with t (t ++ r) = true.
Proof.
  induction t as [|a t IH]; simpl; [reflexivity|].
  now rewrite N.eqb_refl, IH.
Qed.

Lemma starts_with_inv (t s : str) :
  starts_with t s = true -> exists r, s = t ++ r.
Proof.
  revert s. induction t as [|a t IH]; intros s; simpl.
  - intros _. now exists s.
  - destruct s as [|b s]; [discriminate|].
    intros E. apply andb_prop in E as [Eab Et].
    apply N.eqb_eq in Eab as ->. apply IH in Et as [r ->]. now exists r.
Qed.

(** [contains] decides the occurrence of one string inside another. *)
Lemma contains_iff (t s : str) :
  contains t s = true <-> exists l r, s = l ++ t ++ r.
Proof.
  split.
  - induction s as [|b s IH]; simpl; intros E.
    + rewrite orb_false_r in E. apply starts_with_inv in E as [r E].
      now exists [], r.
    + apply orb_prop in E as [E|E].
      * apply starts_with_inv in E as [r E]. now exists [], r.
      * apply IH in E as [l [r ->]]. now exists (b :: l), r.
  - intros [l [r ->]]. induction l as [|b l IH]; simpl.
    + pose proof (starts_with_app t r) as E.
      destruct (t ++ r); simpl; now rewrite E.
    + rewrite IH. apply orb_true_r.
Qed.

Lemma contains_app (l t r : str) : contains t (l ++ t ++ r) = true.
Proof. apply contains_iff. now exists l, r. Qed.

End StrFacts.

(** ** Ranges and slices *)

Section RangeFacts.

Lemma ceil_div_0 (d : nat) : ceil_div 0 d = 0.
Proof.
  unfold ceil_div. destruct d as [|d]; [reflexivity|].
  apply Nat.div_small. lia.
Qed.

Lemma ceil_div_step (n d : nat) :
  0 < d -> 0 < n -> ceil_div n d = S (ceil_div (n - d) d).
Proof.
  intros Hd Hn. unfold ceil_div.
  destruct (Nat.le_gt_cases d n) as [Hle|Hlt].
  - replace (n + d - 1) with ((n - d + d - 1) + 1 * d) by lia.
    rewrite Nat.div_add by lia. lia.
  - replace (n - d) with 0 by lia. simpl.
    rewrite (Nat.div_small (d - 1) d) by lia.
    replace (n + d - 1) with ((n - 1) + 1 * d) by lia.
    rewrite Nat.div_add by lia. rewrite Nat.div_small by lia. reflexivity.
Qed.

(** [ceil_div n d] is the ceiling of [n / d]. *)
Lemma ceil_div_bounds (n d : nat) :
  0 < d -> n <= ceil_div n d * d < n + d.
Proof.
  intros Hd. unfold ceil_div.
  pose proof (Nat.div_mod_eq (n + d - 1) d) as E.
  pose proof (Nat.mod_upper_bound (n + d - 1) d ltac:(lia)) as B.
  nia.
Qed.

Lemma ceil_div_mod (n d : nat) :
  0 < d -> 0 < n ->
  n - (ceil_div n d - 1) * d = if n mod d =? 0 then d else n mod d.
Proof.
  intros Hd Hn.
  pose proof (Nat.div_mod_eq n d) as E.
  pose proof (Nat.mod_upper_bound n d ltac:(lia)) as B.
  pose proof (ceil_div_bounds n d Hd) as C.
  set (q := n / d) in *. set (r := n mod d) in *. set (c := ceil_div n d) in *.
  destruct (Nat.eqb_spec r 0) as [Z|NZ].
  - assert (Hc : c = q).
    { apply Nat.le_antisymm.
      - apply Nat.lt_succ_r, (Nat.mul_lt_mono_pos_r d); lia.
      - apply (Nat.mul_le_mono_pos_r _ _ d); lia. }
    rewrite Hc. destruct q as [|q]; [lia|].
    replace (S q - 1) with q by lia. lia.
  - assert (Hc : c = S q).
    { apply Nat.le_antisymm.
      - apply Nat.lt_succ_r, (Nat.mul_lt_mono_pos_r d); lia.
      - apply (Nat.mul_lt_mono_pos_r d); lia. }
    rewrite Hc. replace (S q - 1) with q by lia. lia.
Qed.

(** With enough fuel, [range_from] lists [i], [i + step], ... below [stop]. *)
Lemma range_from_closed (fuel i stop step : nat) :
  0 < step -> stop - i <= fuel ->
  range_from fuel i stop step
  = map (fun k => i + k * step) (seq 0 (ceil_div (stop - i) step)).
Proof.
  intros Hstep. revert i. induction fuel as [|fuel IH]; intros i Hfuel.
  - replace (stop - i) with 0 by lia. now rewrite ceil_div_0.
  - simpl. destruct (Nat.ltb_spec i stop) as [Hlt|Hge].
    + rewrite (ceil_div_step (stop - i) step) by lia.
      rewrite IH by lia. simpl. f_equal; [lia|].
      rewrite <- seq_shift, map_map.
      replace (stop - i - step) with (stop - (i + step)) by lia.
      apply map_ext. intros k. lia.
    + replace (stop - i) with 0 by lia. now rewrite ceil_div_0.
Qed.

Lemma range_closed (stop step : nat) :
  0 < step ->
  range 0 stop step = Ok (map (fun k => k * step) (seq 0 (ceil_div stop step))).
Proof.
  intros Hstep. unfold range.
  destruct (Nat.eqb_spec step 0); [lia|].
  rewrite range_from_closed by lia. now rewrite Nat.sub_0_r.
Qed.

Lemma range_unit (n : nat) : range 0 n 1 = Ok (seq 0 n).
Proof.
  rewrite range_closed by lia. f_equal.
  assert (E : ceil_div n 1 = n).
  { unfold ceil_div. rewrite Nat.div_1_r. lia. }
  rewrite E. rewrite <- (map_id (seq 0 n)) at 2.
  apply map_ext. intros k. lia.
Qed.

End RangeFacts.

(** ** The chunking loop *)

Section ChunkFacts.

Lemma last_nth {A} (l : list A) (d : A) : last l d = nth (length l - 1) l d.
Proof.
  induction l as [|a l IH]; [reflexivity|].
  destruct l as [|b l]; [reflexivity|].
  change (last (a :: b :: l) d) with (last (b :: l) d). rewrite IH.
  simpl. now rewrite Nat.sub_0_r.
Qed.

Lemma Forall_slice {A} (P : A -> Prop) (i j : nat) (xs : list A) :
  Forall P xs -> Forall P (slice i j xs).
Proof.
  intros H. unfold slice.
  rewrite <- (firstn_skipn i xs) in H. apply Forall_app in H as [_ H].
  rewrite <- (firstn_skipn (j - i) (skipn i xs)) in H.
  now apply Forall_app in H as [H _].
Qed.

Lemma length_slice {A} (k d : nat) (xs : list A) :
  length (slice (k * d) (k * d + d) xs) = Nat.min d (length xs - k * d).
Proof.
  unfold slice. rewrite length_firstn, length_skipn. f_equal. lia.
Qed.

Lemma slice_succ {A} (k d : nat) (xs : list A) :
  slice (S k * d) (S k * d + d) xs = slice (k * d) (k * d + d) (skipn d xs).
Proof.
  unfold slice. rewrite skipn_skipn. f_equal; [lia|]. f_equal. lia.
Qed.

(** The slices of width [d] taken at [0], [d], [2 d], ... tile the list. *)
Lemma concat_slices {A} (d n : nat) (xs : list A) :
  length xs <= n * d ->
  concat (map (fun k => slice (k * d) (k * d + d) xs) (seq 0 n)) = xs.
Proof.
  revert xs. induction n as [|n IH]; intros xs Hlen.
  - destruct xs; [reflexivity | simpl in Hlen; lia].
  - rewrite <- cons_seq, <- seq_shift, map_cons, map_map. simpl concat.
    rewrite (map_ext _ (fun k => slice (k * d) (k * d + d) (skipn d xs)))
      by (intros k; apply slice_succ).
    rewrite IH by (rewrite length_skipn; lia).
    unfold slice. simpl. rewrite Nat.sub_0_r. apply firstn_skipn.
Qed.

Lemma fold_chunk_step (words : list str) (d : nat) (idxs : list nat)
    (n : nat) (cs : list str) :
  fold_left (chunk_step words d) idxs (n, cs)
  = (n + length idxs,
     cs ++ map (fun i => join space (slice i (i + d) words)) idxs).
Proof.
  revert n cs. induction idxs as [|i idxs IH]; intros n cs; simpl.
  - now rewrite Nat.add_0_r, app_nil_r.
  - rewrite IH. f_equal; [lia|]. now rewrite <- app_assoc.
Qed.

(** The loop of lines 134-136 in closed form: chunk [k] joins the words
    from [k * d] up to [k * d + d]. *)
Lemma chunk_words_closed (words : list str) (d : nat) :
  0 < d ->
  chunk_words words d
  = Ok (ceil_div (length words) d,
        map (fun k => join space (slice (k * d) (k * d + d) words))
            (seq 0 (ceil_div (length words) d))).
Proof.
  intros Hd. unfold chunk_words. rewrite range_closed by assumption.
  rewrite fold_chunk_step. simpl. rewrite length_map, length_seq, map_map.
  reflexivity.
Qed.

Lemma chunk_words_counts (words : list str) (d n : nat) (chunks : list str) :
  chunk_words words d = Ok (n, chunks) -> n = length chunks.
Proof.
  unfold chunk_words. destruct (range 0 (length words) d); [|discriminate].
  rewrite fold_chunk_step. intros E. injection E as <- <-.
  simpl. now rewrite length_map.
Qed.

Lemma chunk_words_zero (words : list str) :
  chunk_words words 0 = Exn (lit "range() arg 3 must not be zero").
Proof. reflexivity. Qed.

(** The words of chunk [k] are the [k]-th slice of the transcript. *)
Lemma split_nth_chunk (words : list str) (d n k : nat) :
  Forall word words ->
  k < n ->
  split (nth k (map (fun k => join space (slice (k * d) (k * d + d) words))
                    (seq 0 n)) [])
  = slice (k * d) (k * d + d) words.
Proof.
  intros Hw Hk.
  set (f := fun k => join space (slice (k * d) (k * d + d) words)).
  rewrite (nth_indep _ [] (f 0)) by (now rewrite length_map, length_seq).
  rewrite map_nth, seq_nth by assumption. unfold f. simpl.
  apply split_join. now apply Forall_slice.
Qed.

End ChunkFacts.

(** C1: for every transcript [T] (a sequence of words) and every limit
    [L > 0], the chunking step produces [ceil (len T / L)] chunks; the words
    of all chunks, concatenated in order, are [T]; every chunk but the last
    has exactly [L] words; the last chunk has [len T mod L] words, or [L]
    when [len T] is non-zero and divisible by [L]; and when
    [L > len T > 0] exactly one chunk is produced, holding the whole
    transcript. *)
Theorem chunking_partitions_transcript (T : list str) (L : nat) :
  Forall word T -> 0 < L ->
  exists chunks : list str,
    chunk_words T L = Ok (length chunks, chunks)
    /\ length chunks = ceil_div (length T) L
    /\ length T <= length chunks * L < length T + L
    /\ concat (map split chunks) = T
    /\ (forall i, S i < length chunks -> length (split (nth i chunks [])) = L)
    /\ (0 < length T ->
        length (split (last chunks []))
        = if length T mod L =? 0 then L else length T mod L)
    /\ (0 < length T < L -> chunks = [join space T] /\ split (join space T) = T).
Proof.
  intros HT HL.
  pose proof (ceil_div_bounds (length T) L HL) as HB.
  pose proof (chunk_words_closed T L HL) as HC.
  remember (ceil_div (length T) L) as N eqn:EN.
  remember (map (fun k => join space (slice (k * L) (k * L + L) T)) (seq 0 N))
    as chunks eqn:Echunks.
  assert (Hlen : length chunks = N) by (subst chunks; now rewrite length_map, length_seq).
  exists chunks. rewrite Hlen. repeat split.
  - exact HC.
  - apply HB.
  - apply HB.
  - subst chunks. rewrite map_map.
    rewrite (map_ext_in _ (fun k => slice (k * L) (k * L + L) T)).
    + apply concat_slices. apply HB.
    + intros k _. apply split_join. now apply Forall_slice.
  - intros i Hi. subst chunks. rewrite split_nth_chunk by (assumption || lia).
    rewrite length_slice. nia.
  - intros Hpos.
    assert (HN : 0 < N).
    { destruct N; [|lia]. simpl in HB. lia. }
    rewrite last_nth, Hlen. subst chunks.
    rewrite split_nth_chunk by (assumption || lia).
    rewrite length_slice.
    rewrite <- (ceil_div_mod (length T) L HL Hpos). rewrite <- EN. nia.
  - assert (HN : N = 1) by nia.
    subst chunks. rewrite HN. simpl. unfold slice. simpl.
    f_equal. f_equal. apply firstn_all2. lia.
  - now apply split_join.
Qed.

(** A transcript of five words cut with a limit of two. *)
Lemma chunking_partitions_transcript_witness :
  exists chunks : list str,
    chunk_words (split (lit "a b c d e")) 2 = Ok (length chunks, chunks)
    /\ length chunks = ceil_div 5 2
    /\ 5 <= length chunks * 2 < 5 + 2
    /\ concat (map split chunks) = split (lit "a b c d e")
    /\ (forall i, S i < length chunks -> length (split (nth i chunks [])) = 2)
    /\ (0 < 5 ->
        length (split (last chunks [])) = if 5 mod 2 =? 0 then 2 else 5 mod 2)
    /\ (0 < 5 < 2 ->
        chunks = [join space (split (lit "a b c d e"))]
        /\ split (join space (split (lit "a b c d e"))) = split (lit "a b c d e")).
Proof.
  apply (chunking_partitions_transcript (split (lit "a b c d e")) 2).
  - apply split_words.
  - lia.
Defined.

(** ** Runs of the pipeline *)

Section PipelineFacts.

Context {World : Type} {collab : Collaborators World}.

Lemma summarize_chunk_run (video_data llm_model : str) (chunks acc : list str)
    (i : nat) (chunk : str) (st : PState) :
  nth_error chunks i = Some chunk ->
  summarize_chunk video_data llm_model chunks acc i st
  = let (r, w1) := client_invoke (chunk_prompt_prefix ++ chunk) llm_model (world st) in
    (Ok (acc ++ [chunk_result r]),
     {| world := w1;
        log := log st ++ [Invoke (chunk_prompt_prefix ++ chunk) llm_model r;
                          Shown (chunk_result r)] |}).
Proof.
  intros Hi.
  unfold summarize_chunk, bind, lift, index, try_except, invoke, show, ret.
  rewrite Hi.
  destruct (client_invoke (chunk_prompt_prefix ++ chunk) llm_model (world st)) as [r w1].
  destruct r; simpl; now rewrite <- app_assoc.
Qed.

(** The loop over [range(num_chunks)] does what [chunk_trace] lists. *)
Lemma for_each_chunks (video_data llm_model : str) (rest done acc : list str)
    (st : PState) :
  for_each (seq (length done) (length rest))
           (summarize_chunk video_data llm_model (done ++ rest)) acc st
  = let '(ss, evs, w2) := chunk_trace llm_model rest (world st) in
    (Ok (acc ++ ss), {| world := w2; log := log st ++ evs |}).
Proof.
  revert done acc st. induction rest as [|chunk rest IH]; intros done acc st.
  - cbn [length seq for_each chunk_trace]. unfold ret.
    rewrite !app_nil_r. now destruct st.
  - cbn [length seq for_each chunk_trace]. unfold bind at 1.
    rewrite summarize_chunk_run with (chunk := chunk)
      by (rewrite nth_error_app2, Nat.sub_diag by lia; reflexivity).
    destruct (client_invoke (chunk_prompt_prefix ++ chunk) llm_model (world st)) as [r w1].
    specialize (IH (done ++ [chunk]) (acc ++ [chunk_result r])
                  {| world := w1;
                     log := log st ++ [Invoke (chunk_prompt_prefix ++ chunk) llm_model r;
                                       Shown (chunk_result r)] |}).
    replace (length (done ++ [chunk])) with (S (length done)) in IH
      by (rewrite length_app; simpl; lia).
    rewrite <- app_assoc in IH. cbn [app world log] in IH.
    rewrite IH.
    destruct (chunk_trace llm_model rest w1) as [[ss evs] w2].
    now rewrite <- !app_assoc.
Qed.

Lemma final_summary_run (_url video_data llm_model : str) (ss : list str)
    (st : PState) :
  final_summary _url video_data llm_model ss st
  = let prompt := final_prompt_prefix
                  ++ add_summaries (video_info_head _url video_data) 1 ss in
    let (r, w1) := client_invoke prompt llm_model (world st) in
    (Ok (final_result r),
     {| world := w1;
        log := log st ++ [Invoke prompt llm_model r; Shown (final_result r)] |}).
Proof.
  unfold final_summary, bind, try_except, invoke, show, ret. cbv zeta.
  destruct (client_invoke _ llm_model (world st)) as [r w1].
  destruct r; simpl; now rewrite <- app_assoc.
Qed.

Lemma direct_summary_run (_url video_data llm_model captions : str) (st : PState) :
  direct_summary _url video_data llm_model captions st
  = let prompt := chunk_prompt_prefix ++ captions in
    let (r, w1) := client_invoke prompt llm_model (world st) in
    (Ok (direct_result r),
     {| world := w1;
        log := log st ++ [Invoke prompt llm_model r; Shown (direct_result r)] |}).
Proof.
  unfold direct_summary, bind, try_except, invoke, show, ret. cbv zeta.
  destruct (client_invoke _ llm_model (world st)) as [r w1].
  destruct r; simpl; now rewrite <- app_assoc.
Qed.

Lemma invocations_app (a b : list Event) :
  invocations (a ++ b) = invocations a ++ invocations b.
Proof. unfold invocations. apply flat_map_app. Qed.

Lemma prompts_app (a b : list Event) : prompts (a ++ b) = prompts a ++ prompts b.
Proof. unfold prompts. now rewrite invocations_app, map_app. Qed.

Lemma responses_app (a b : list Event) :
  responses (a ++ b) = responses a ++ responses b.
Proof. unfold responses. now rewrite invocations_app, map_app. Qed.

(** The requests of the chunk loop are the chunk prompts, in chunk order,
    and summary [k] is what the [k]-th request gave. *)
Lemma chunk_trace_spec (llm_model : str) (chunks : list str) (w : World)
    (ss : list str) (evs : list Event) (w2 : World) :
  chunk_trace llm_model chunks w = (ss, evs, w2) ->
  map fst (invocations evs)
  = map (fun chunk => (chunk_prompt_prefix ++ chunk, llm_model)) chunks
  /\ ss = map chunk_result (responses evs).
Proof.
  revert w ss evs w2. induction chunks as [|chunk rest IH]; intros w ss evs w2 E.
  - injection E as <- <- _. now split.
  - cbn [chunk_trace] in E.
    destruct (client_invoke (chunk_prompt_prefix ++ chunk) llm_model w) as [r w1].
    destruct (chunk_trace llm_model rest w1) as [[ss' evs'] w2'] eqn:E'.
    injection E as <- <- _. apply IH in E' as [Hp Hs].
    unfold responses in *. cbn [invocations flat_map app map fst snd] in *.
    fold (invocations evs'). split; [now rewrite Hp | now rewrite Hs].
Qed.

Lemma chunk_trace_prompts (llm_model : str) (chunks : list str) (w : World)
    (ss : list str) (evs : list Event) (w2 : World) :
  chunk_trace llm_model chunks w = (ss, evs, w2) ->
  prompts evs = map (app chunk_prompt_prefix) chunks.
Proof.
  intros E. apply chunk_trace_spec in E as [Hp _].
  unfold prompts. apply (f_equal (map fst)) in Hp.
  rewrite !map_map in Hp. exact Hp.
Qed.

Lemma chunk_trace_lengths (llm_model : str) (chunks : list str) (w : World)
    (ss : list str) (evs : list Event) (w2 : World) :
  chunk_trace llm_model chunks w = (ss, evs, w2) ->
  length ss = length chunks /\ length (responses evs) = length chunks.
Proof.
  intros E. apply chunk_trace_spec in E as [Hp Hs].
  apply (f_equal (@length _)) in Hp. rewrite !length_map in Hp.
  subst ss. unfold responses. now rewrite !length_map.
Qed.

(** A run starts the summarisation block in the world the two fetches left. *)
Lemma run_unfold (_url llm_model : str) (chunker_limit : nat) (w : World) :
  run _url llm_model chunker_limit w
  = summarize_captions (get_video_summarizer llm_model true) _url llm_model
      chunker_limit (video_data_of _url w) (captions_of _url w)
      {| world := world_after_fetch _url w; log := [] |}.
Proof.
  unfold run, summarize_video, bind, fetch_video_data, fetch_video_captions,
    video_data_of, captions_of, world_after_fetch.
  cbn [world log].
  destruct (get_youtube_video_data _url w) as [d w1]. cbn [fst snd world log].
  destruct (get_youtube_video_captions _url w1) as [c w2]. reflexivity.
Qed.

(** Absent or empty captions: the guard of line 122 ends the run. *)
Lemma summarize_captions_absent (cfg : VideoSummarizer) (_url llm_model : str)
    (chunker_limit : nat) (video_data : str) (video_captions : option str)
    (st : PState) :
  truthy video_captions = false ->
  summarize_captions cfg _url llm_model chunker_limit video_data video_captions st
  = (Ok CouldNotParse,
     {| world := world st; log := log st ++ [Shown sorry_message] |}).
Proof.
  intros Hc. unfold summarize_captions.
  destruct video_captions as [c|]; [rewrite Hc|]; reflexivity.
Qed.

(** More than one chunk: the chunk loop, then the final summary. *)
Lemma summarize_captions_multi (cfg : VideoSummarizer) (_url llm_model : str)
    (chunker_limit : nat) (video_data captions : str) (st : PState)
    (n : nat) (chunks : list str) :
  truthy (Some captions) = true ->
  chunk_words (split captions) chunker_limit = Ok (n, chunks) ->
  1 < n ->
  exists ss evs w2 r w3,
    chunk_trace llm_model chunks (world st) = (ss, evs, w2)
    /\ client_invoke
         (final_prompt_prefix ++ add_summaries (video_info_head _url video_data) 1 ss)
         llm_model w2 = (r, w3)
    /\ summarize_captions cfg _url llm_model chunker_limit video_data
         (Some captions) st
       = (Ok (Summarized chunks ss (final_result r)),
          {| world := w3;
             log := log st ++ evs
                    ++ [Invoke (final_prompt_prefix
                                ++ add_summaries (video_info_head _url video_data) 1 ss)
                               llm_model r;
                        Shown (final_result r)] |}).
Proof.
  intros Hc Hw Hn.
  pose proof (chunk_words_counts _ _ _ _ Hw) as Hlen.
  destruct (chunk_trace llm_model chunks (world st)) as [[ss evs] w2] eqn:Et.
  destruct (client_invoke
              (final_prompt_prefix ++ add_summaries (video_info_head _url video_data) 1 ss)
              llm_model w2) as [r w3] eqn:Ei.
  exists ss, evs, w2, r, w3. split; [reflexivity|]. split; [exact Ei|].
  unfold summarize_captions. rewrite Hc. cbn [negb].
  unfold bind at 1. unfold lift at 1. rewrite Hw.
  destruct (Nat.ltb_spec 1 n) as [_|]; [|lia].
  unfold bind at 1. unfold lift at 1. rewrite range_unit.
  unfold bind at 1.
  pose proof (for_each_chunks video_data llm_model chunks [] [] st) as Hloop.
  cbn [length app] in Hloop. rewrite <- Hlen in Hloop. rewrite Hloop, Et.
  unfold bind at 1. rewrite final_summary_run. cbn [world log].
  cbv zeta. rewrite Ei. unfold ret. now rewrite <- app_assoc.
Qed.

(** At most one chunk: the summary is asked directly over the captions. *)
Lemma summarize_captions_single (cfg : VideoSummarizer) (_url llm_model : str)
    (chunker_limit : nat) (video_data captions : str) (st : PState)
    (n : nat) (chunks : list str) :
  truthy (Some captions) = true ->
  chunk_words (split captions) chunker_limit = Ok (n, chunks) ->
  n <= 1 ->
  exists r w1,
    client_invoke (chunk_prompt_prefix ++ captions) llm_model (world st) = (r, w1)
    /\ summarize_captions cfg _url llm_model chunker_limit video_data
         (Some captions) st
       = (Ok (Summarized chunks [] (direct_result r)),
          {| world := w1;
             log := log st
                    ++ [Invoke (chunk_prompt_prefix ++ captions) llm_model r;
                        Shown (direct_result r)] |}).
Proof.
  intros Hc Hw Hn.
  destruct (client_invoke (chunk_prompt_prefix ++ captions) llm_model (world st))
    as [r w1] eqn:Ei.
  exists r, w1. split; [reflexivity|].
  unfold summarize_captions. rewrite Hc. cbn [negb].
  unfold bind at 1. unfold lift at 1. rewrite Hw.
  destruct (Nat.ltb_spec 1 n) as [|_]; [lia|].
  unfold bind at 1. rewrite direct_summary_run. cbv zeta. rewrite Ei.
  reflexivity.
Qed.

Lemma truthy_some (c : str) : c <> [] -> truthy (Some c) = true.
Proof. destruct c; [congruence | reflexivity]. Qed.

Lemma truthy_false (video_captions : option str) :
  truthy video_captions = false <-> video_captions = None \/ video_captions = Some [].
Proof.
  destruct video_captions as [[|a c]|]; simpl; split; intros E; auto;
    try discriminate; destruct E as [E|E]; discriminate.
Qed.

(** A run over non-empty captions, by number of chunks. *)
Lemma run_present (_url llm_model : str) (chunker_limit : nat) (w : World)
    (captions : str) :
  0 < chunker_limit ->
  captions_of _url w = Some captions ->
  captions <> [] ->
  exists chunks,
    chunk_words (split captions) chunker_limit = Ok (length chunks, chunks)
    /\ ((1 < length chunks
         /\ exists ss evs w2 r w3,
              chunk_trace llm_model chunks (world_after_fetch _url w) = (ss, evs, w2)
              /\ client_invoke
                   (final_prompt_prefix
                    ++ add_summaries (video_info_head _url (video_data_of _url w)) 1 ss)
                   llm_model w2 = (r, w3)
              /\ run _url llm_model chunker_limit w
                 = (Ok (Summarized chunks ss (final_result r)),
                    {| world := w3;
                       log := evs
                              ++ [Invoke
                                    (final_prompt_prefix
                                     ++ add_summaries
                                          (video_info_head _url (video_data_of _url w)) 1 ss)
                                    llm_model r;
                                  Shown (final_result r)] |}))
        \/ (length chunks <= 1
            /\ exists r w1,
                 client_invoke (chunk_prompt_prefix ++ captions) llm_model
                   (world_after_fetch _url w) = (r, w1)
                 /\ run _url llm_model chunker_limit w
                    = (Ok (Summarized chunks [] (direct_result r)),
                       {| world := w1;
                          log := [Invoke (chunk_prompt_prefix ++ captions) llm_model r;
                                  Shown (direct_result r)] |}))).
Proof.
  intros HL Hc Hne.
  pose proof (chunk_words_closed (split captions) chunker_limit HL) as Hw.
  pose proof (chunk_words_counts _ _ _ _ Hw) as Hlen.
  rewrite Hlen in Hw at 1.
  match type of Hw with _ = Ok (_, ?cs) => exists cs end.
  split; [exact Hw|].
  rewrite run_unfold, Hc.
  match type of Hw with _ = Ok (_, ?cs) =>
    destruct (Nat.lt_ge_cases 1 (length cs)) as [Hn|Hn] end.
  - left. split; [exact Hn|].
    destruct (summarize_captions_multi (get_video_summarizer llm_model true)
                _url llm_model chunker_limit (video_data_of _url w) captions
                {| world := world_after_fetch _url w; log := [] |} _ _
                (truthy_some captions Hne) Hw Hn)
      as (ss & evs & w2 & r & w3 & Et & Ei & Er).
    exists ss, evs, w2, r, w3. repeat split; assumption.
  - right. split; [exact Hn|].
    destruct (summarize_captions_single (get_video_summarizer llm_model true)
                _url llm_model chunker_limit (video_data_of _url w) captions
                {| world := world_after_fetch _url w; log := [] |} _ _
                (truthy_some captions Hne) Hw Hn)
      as (r & w1 & Ei & Er).
    exists r, w1. split; assumption.
Qed.

End PipelineFacts.

(** ** The claims about completion requests *)



(** ** The aggregate prompt *)

Section PromptFacts.

Lemma labelled_summary_flat (i : nat) (chunk_summary : str) :
  labelled_summary i chunk_summary
  = lit "Chunk " ++ str_of_nat i ++ lit ":" ++ nl ++ nl
    ++ chunk_summary ++ nl ++ nl ++ lit "---" ++ nl ++ nl.
Proof. unfold labelled_summary. now rewrite <- !app_assoc. Qed.

(** The loop of lines 165-167 appends the labelled summaries in list order,
    numbered from [i]. *)
Lemma add_summaries_closed (video_info : str) (i : nat) (ss : list str) :
  add_summaries video_info i ss
  = video_info
    ++ concat (map (fun p => labelled_summary (fst p) (snd p))
                   (combine (seq i (length ss)) ss)).
Proof.
  revert video_info i. induction ss as [|s ss IH]; intros video_info i.
  - simpl. now rewrite app_nil_r.
  - cbn [add_summaries length seq combine map concat fst snd].
    rewrite IH. now rewrite <- app_assoc.
Qed.

Lemma add_summaries_contains (video_info : str) (i : nat) (ss : list str) (s : str) :
  In s ss -> contains s (add_summaries video_info i ss) = true.
Proof.
  revert video_info i. induction ss as [|s' ss IH]; intros video_info i Hin.
  - destruct Hin.
  - destruct Hin as [->|Hin].
    + cbn [add_summaries]. rewrite add_summaries_closed.
      apply contains_iff.
      exists (video_info ++ lit "Chunk " ++ str_of_nat i ++ lit ":" ++ nl ++ nl).
      eexists. rewrite labelled_summary_flat. rewrite <- !app_assoc. reflexivity.
    + cbn [add_summaries]. now apply IH.
Qed.



End PromptFacts.



(** C7: in every run with more than one chunk, there are as many chunk
    summaries as chunks (one per chunk, possibly an error placeholder), and
    the aggregation runs only once all of them exist: its request comes
    after the [N] chunk requests and its prompt holds every summary. *)
Theorem summaries_complete_before_aggregation
    {World : Type} {collab : Collaborators World}
    (_url llm_model : str) (chunker_limit : nat) (w : World) (captions : str) :
  0 < chunker_limit ->
  captions_of _url w = Some captions ->
  captions <> [] ->
  exists chunks chunk_summaries summary st,
    chunk_words (split captions) chunker_limit = Ok (length chunks, chunks)
    /\ run _url llm_model chunker_limit w
       = (Ok (Summarized chunks chunk_summaries summary), st)
    /\ (1 < length chunks ->
        length chunk_summaries = length chunks
        /\ exists chunk_calls aggregate_call,
             invocations (log st) = chunk_calls ++ [aggregate_call]
             /\ length chunk_calls = length chunks
             /\ chunk_summaries = map (fun call => chunk_result (snd call)) chunk_calls
             /\ fst (fst aggregate_call)
                = final_prompt_prefix
                  ++ add_summaries (video_info_head _url (video_data_of _url w)) 1
                       chunk_summaries
             /\ forall s, In s chunk_summaries ->
                          contains s (fst (fst aggregate_call)) = true).
Proof.
  intros HL Hc Hne.
  destruct (run_present _url llm_model chunker_limit w captions HL Hc Hne)
    as (chunks & Hw & [[Hn (ss & evs & w2 & r & w3 & Et & Ei & Er)]
                      | [Hn (r & w1 & Ei & Er)]]).
  - eexists chunks, ss, _, _. split; [exact Hw|]. split; [exact Er|].
    intros _. cbn [log].
    destruct (chunk_trace_lengths _ _ _ _ _ _ Et) as [Hss Hrs].
    destruct (chunk_trace_spec _ _ _ _ _ _ Et) as [_ Hmap].
    split; [exact Hss|].
    exists (invocations evs). eexists. rewrite invocations_app.
    split; [reflexivity|]. cbn [fst].
    split; [unfold responses in Hrs; now rewrite length_map in Hrs|].
    split; [unfold responses in Hmap; now rewrite map_map in Hmap|].
    split; [reflexivity|].
    intros s Hs. apply contains_iff.
    apply (add_summaries_contains (video_info_head _url (video_data_of _url w)) 1) in Hs.
    apply contains_iff in Hs as (l & r' & ->).
    exists (final_prompt_prefix ++ l), r'. now rewrite <- app_assoc.
  - eexists chunks, [], _, _. split; [exact Hw|]. split; [exact Er|]. lia.
Qed.

(** Scenario D in small: the request for the second of three chunks fails. *)
Lemma summaries_complete_before_aggregation_witness :
  exists chunks chunk_summaries summary st,
    chunk_words (split (lit "a b c")) 1 = Ok (length chunks, chunks)
    /\ run (collab := scripted demo_data (Some (lit "a b c")))
         demo_url demo_model 1
         [Content (lit "first"); Raised (lit "rate limit"); Content (lit "third");
          Content (lit "report")]
       = (Ok (Summarized chunks chunk_summaries summary), st)
    /\ (1 < length chunks ->
        length chunk_summaries = length chunks
        /\ exists chunk_calls aggregate_call,
             invocations (log st) = chunk_calls ++ [aggregate_call]
             /\ length chunk_calls = length chunks
             /\ chunk_summaries = map (fun call => chunk_result (snd call)) chunk_calls
             /\ fst (fst aggregate_call)
                = final_prompt_prefix
                  ++ add_summaries (video_info_head demo_url demo_data) 1
                       chunk_summaries
             /\ forall s, In s chunk_summaries ->
                          contains s (fst (fst aggregate_call)) = true).
Proof.
  apply (summaries_complete_before_aggregation
           (collab := scripted demo_data (Some (lit "a b c")))
           demo_url demo_model 1
           [Content (lit "first"); Raised (lit "rate limit"); Content (lit "third");
            Content (lit "report")]
           (lit "a b c")).
  - lia.
  - reflexivity.
  - discriminate.
Defined.

(** ** What is recorded for each request *)

Section RecordFacts.

Context {World : Type} {collab : Collaborators World}.

(** In a list of [N] chunk responses followed by the final one, the response
    at position [k < N] decides summary [k], and position [N] is the final
    response. *)
Lemma recorded_at (rs : list Response) (r : Response) (k : nat) (resp : Response) :
  nth_error (rs ++ [r]) k = Some resp ->
  (k < length rs -> nth_error (map chunk_result rs) k = Some (chunk_result resp))
  /\ (k = length rs -> resp = r).
Proof.
  intros E. split.
  - intros Hk. rewrite nth_error_app1 in E by assumption.
    now apply map_nth_error.
  - intros ->. rewrite nth_error_app2, Nat.sub_diag in E by lia.
    now injection E.
Qed.

(** A run whose captions are absent or empty stops at the guard. *)
Lemma run_absent (_url llm_model : str) (chunker_limit : nat) (w : World) :
  truthy (captions_of _url w) = false ->
  run _url llm_model chunker_limit w
  = (Ok CouldNotParse,
     {| world := world_after_fetch _url w; log := [Shown sorry_message] |}).
Proof.
  intros Hc. rewrite run_unfold. now rewrite summarize_captions_absent.
Qed.

(** The responses of a run with more than one chunk, and what they gave. *)
Lemma run_multi_responses (llm_model : str) (chunks ss : list str)
    (evs : list Event) (w w2 : World) (p : str) (r : Response) (s : str) :
  chunk_trace llm_model chunks w = (ss, evs, w2) ->
  responses (evs ++ [Invoke p llm_model r; Shown s]) = responses evs ++ [r]
  /\ length (responses evs) = length chunks
  /\ ss = map chunk_result (responses evs).
Proof.
  intros Et. split; [now rewrite responses_app|].
  split; [apply (chunk_trace_lengths _ _ _ _ _ _ Et)
         | apply (chunk_trace_spec _ _ _ _ _ _ Et)].
Qed.

End RecordFacts.

(** C4: for every run and every completion request, at chunk level or at
    aggregation level, if the request fails then the result recorded for that
    position is a readable placeholder that contains the error detail, the
    remaining chunks and the aggregation are still processed, and no error
    leaves the pipeline.  The run over the captions ends with one result per
    chunk and a summary; all the requests are sent, in order, whatever their
    outcome; and from any world the run returns normally. *)
Theorem completion_failures_become_placeholders
    {World : Type} {collab : Collaborators World}
    (_url llm_model : str) (chunker_limit : nat) (w : World) (captions : str) :
  0 < chunker_limit ->
  captions_of _url w = Some captions ->
  captions <> [] ->
  (forall w', exists outcome st, run _url llm_model chunker_limit w' = (Ok outcome, st))
  /\ exists chunks chunk_summaries summary st,
       chunk_words (split captions) chunker_limit = Ok (length chunks, chunks)
       /\ run _url llm_model chunker_limit w
          = (Ok (Summarized chunks chunk_summaries summary), st)
       /\ (1 < length chunks ->
           map fst (invocations (log st))
           = map (fun chunk => (chunk_prompt_prefix ++ chunk, llm_model)) chunks
             ++ [(final_prompt_prefix
                  ++ add_summaries (video_info_head _url (video_data_of _url w)) 1
                       chunk_summaries,
                  llm_model)]
           /\ length (responses (log st)) = length chunks + 1
           /\ length chunk_summaries = length chunks
           /\ forall k e,
                nth_error (responses (log st)) k = Some (Raised e) ->
                (k < length chunks ->
                 nth_error chunk_summaries k
                 = Some (lit "Error during API call: " ++ e))
                /\ (k = length chunks ->
                    summary = lit "Error during final summary generation: " ++ e))
       /\ (length chunks <= 1 ->
           exists r,
             invocations (log st) = [(chunk_prompt_prefix ++ captions, llm_model, r)]
             /\ chunk_summaries = []
             /\ forall e, r = Raised e ->
                          summary = lit "Error during summary generation: " ++ e).
Proof.
  intros HL Hcap Hne. split.
  - intros w'. destruct (truthy (captions_of _url w')) eqn:Hc.
    + destruct (captions_of _url w') as [[|a c]|] eqn:Hcap'; try discriminate Hc.
      destruct (run_present _url llm_model chunker_limit w' (a :: c) HL Hcap'
                  ltac:(discriminate))
        as (chunks & Hw & [[Hn (ss & evs & w2 & r & w3 & Et & Ei & Er)]
                          | [Hn (r & w1 & Ei & Er)]]);
        eexists _, _; exact Er.
    + eexists _, _. now apply run_absent.
  - destruct (run_present _url llm_model chunker_limit w captions HL Hcap Hne)
      as (chunks & Hw & [[Hn (ss & evs & w2 & r & w3 & Et & Ei & Er)]
                        | [Hn (r & w1 & Ei & Er)]]).
    + eexists chunks, ss, _, _. split; [exact Hw|]. split; [exact Er|].
      cbn [log]. split; [intros _ | lia].
      destruct (run_multi_responses llm_model chunks ss evs _ w2
                  (final_prompt_prefix
                   ++ add_summaries (video_info_head _url (video_data_of _url w)) 1 ss)
                  r (final_result r) Et) as (Hr & Hlen & Hss).
      destruct (chunk_trace_spec _ _ _ _ _ _ Et) as [Hp _].
      split.
      { rewrite invocations_app, map_app, Hp. reflexivity. }
      rewrite Hr. split; [rewrite length_app, Hlen; reflexivity|].
      split; [rewrite Hss, length_map; exact Hlen|].
      intros k e Hk. apply recorded_at in Hk as [Hlt Heq].
      rewrite Hlen in Hlt, Heq. split.
      * intros Hklt. rewrite Hss. exact (Hlt Hklt).
      * intros Hkeq. now rewrite <- (Heq Hkeq).
    + eexists chunks, [], _, _. split; [exact Hw|]. split; [exact Er|].
      cbn [log]. split; [lia | intros _].
      exists r. split; [reflexivity|]. split; [reflexivity|]. now intros e ->.
Qed.

(** Scenario D in small: three chunks, and the second request fails. *)
Lemma completion_failures_become_placeholders_witness :
  (forall w', exists outcome st,
     run (collab := scripted demo_data (Some (lit "a b c")))
       demo_url demo_model 1 w' = (Ok outcome, st))
  /\ exists chunks chunk_summaries summary st,
       chunk_words (split (lit "a b c")) 1 = Ok (length chunks, chunks)
       /\ run (collab := scripted demo_data (Some (lit "a b c")))
            demo_url demo_model 1
            [Content (lit "first"); Raised (lit "rate limit"); Content (lit "third");
             Content (lit "report")]
          = (Ok (Summarized chunks chunk_summaries summary), st)
       /\ (1 < length chunks ->
           map fst (invocations (log st))
           = map (fun chunk => (chunk_prompt_prefix ++ chunk, demo_model)) chunks
             ++ [(final_prompt_prefix
                  ++ add_summaries (video_info_head demo_url demo_data) 1
                       chunk_summaries,
                  demo_model)]
           /\ length (responses (log st)) = length chunks + 1
           /\ length chunk_summaries = length chunks
           /\ forall k e,
                nth_error (responses (log st)) k = Some (Raised e) ->
                (k < length chunks ->
                 nth_error chunk_summaries k
                 = Some (lit "Error during API call: " ++ e))
                /\ (k = length chunks ->
                    summary = lit "Error during final summary generation: " ++ e))
       /\ (length chunks <= 1 ->
           exists r,
             invocations (log st) = [(chunk_prompt_prefix ++ lit "a b c", demo_model, r)]
             /\ chunk_summaries = []
             /\ forall e, r = Raised e ->
                          summary = lit "Error during summary generation: " ++ e).
Proof.
  apply (completion_failures_become_placeholders
           (collab := scripted demo_data (Some (lit "a b c")))
           demo_url demo_model 1
           [Content (lit "first"); Raised (lit "rate limit"); Content (lit "third");
            Content (lit "report")]
           (lit "a b c")).
  - lia.
  - reflexivity.
  - discriminate.
Defined.

(** Scenario D on three one-word chunks: the failed request leaves its
    placeholder in second place, and the two other chunks and the
    aggregation go on. *)
Example second_chunk_fails :
  fst (run (collab := scripted demo_data (Some (lit "a b c")))
         demo_url demo_model 1
         [Content (lit "first"); Raised (lit "rate limit"); Content (lit "third");
          Content (lit "report")])
  = Ok (Summarized [lit "a"; lit "b"; lit "c"]
          [lit "first"; lit "Error during API call: rate limit"; lit "third"]
          (lit "report")).
Proof. reflexivity. Qed.

(** C9: for every completion request that succeeds, at chunk level, at
    aggregation level or on the direct path, the text recorded as its result
    is the response text with the whitespace at both ends removed.  The
    responses are those of the requests of the run, one per chunk and then
    the aggregate one, or the single direct one. *)
Theorem successful_responses_are_trimmed
    {World : Type} {collab : Collaborators World}
    (_url llm_model : str) (chunker_limit : nat) (w : World) (captions : str) :
  0 < chunker_limit ->
  captions_of _url w = Some captions ->
  captions <> [] ->
  exists chunks chunk_summaries summary st,
    chunk_words (split captions) chunker_limit = Ok (length chunks, chunks)
    /\ run _url llm_model chunker_limit w
       = (Ok (Summarized chunks chunk_summaries summary), st)
    /\ (1 < length chunks ->
        map fst (invocations (log st))
        = map (fun chunk => (chunk_prompt_prefix ++ chunk, llm_model)) chunks
          ++ [(final_prompt_prefix
               ++ add_summaries (video_info_head _url (video_data_of _url w)) 1
                    chunk_summaries,
               llm_model)]
        /\ length (responses (log st)) = length chunks + 1
        /\ length chunk_summaries = length chunks
        /\ forall k content,
             nth_error (responses (log st)) k = Some (Content content) ->
             (k < length chunks ->
              nth_error chunk_summaries k = Some (strip content)
              /\ trimmed content (strip content))
             /\ (k = length chunks ->
                 summary = strip content /\ trimmed content summary))
    /\ (length chunks <= 1 ->
        exists r,
          invocations (log st) = [(chunk_prompt_prefix ++ captions, llm_model, r)]
          /\ chunk_summaries = []
          /\ forall content,
               r = Content content ->
               summary = strip content /\ trimmed content summary).
Proof.
  intros HL Hc Hne.
  destruct (run_present _url llm_model chunker_limit w captions HL Hc Hne)
    as (chunks & Hw & [[Hn (ss & evs & w2 & r & w3 & Et & Ei & Er)]
                      | [Hn (r & w1 & Ei & Er)]]).
  - eexists chunks, ss, _, _. split; [exact Hw|]. split; [exact Er|]. cbn [log].
    split; [intros _ | lia].
    destruct (run_multi_responses llm_model chunks ss evs _ w2
                (final_prompt_prefix
                 ++ add_summaries (video_info_head _url (video_data_of _url w)) 1 ss)
                r (final_result r) Et) as (Hr & Hlen & Hss).
    destruct (chunk_trace_spec _ _ _ _ _ _ Et) as [Hp _].
    split.
    { rewrite invocations_app, map_app, Hp. reflexivity. }
    rewrite Hr. split; [rewrite length_app, Hlen; reflexivity|].
    split; [rewrite Hss, length_map; exact Hlen|].
    intros k content Hk. apply recorded_at in Hk as [Hlt Heq].
    rewrite Hlen in Hlt, Heq. split.
    + intros Hklt. rewrite Hss. split; [exact (Hlt Hklt) | apply strip_trimmed].
    + intros Hkeq. rewrite <- (Heq Hkeq). split; [reflexivity | apply strip_trimmed].
  - eexists chunks, [], _, _. split; [exact Hw|]. split; [exact Er|]. cbn [log].
    split; [lia | intros _].
    exists r. split; [reflexivity|]. split; [reflexivity|].
    intros content ->. split; [reflexivity | apply strip_trimmed].
Qed.

(** Responses padded with blanks and line breaks, over two chunks. *)
Lemma successful_responses_are_trimmed_witness :
  exists chunks chunk_summaries summary st,
    chunk_words (split (lit "a b c")) 2 = Ok (length chunks, chunks)
    /\ run (collab := scripted demo_data (Some (lit "a b c")))
         demo_url demo_model 2
         [Content (lit "  one "); Content (nl ++ lit "two" ++ nl);
          Content (lit " report " ++ nl)]
       = (Ok (Summarized chunks chunk_summaries summary), st)
    /\ (1 < length chunks ->
        map fst (invocations (log st))
        = map (fun chunk => (chunk_prompt_prefix ++ chunk, demo_model)) chunks
          ++ [(final_prompt_prefix
               ++ add_summaries (video_info_head demo_url demo_data) 1
                    chunk_summaries,
               demo_model)]
        /\ length (responses (log st)) = length chunks + 1
        /\ length chunk_summaries = length chunks
        /\ forall k content,
             nth_error (responses (log st)) k = Some (Content content) ->
             (k < length chunks ->
              nth_error chunk_summaries k = Some (strip content)
              /\ trimmed content (strip content))
             /\ (k = length chunks ->
                 summary = strip content /\ trimmed content summary))
    /\ (length chunks <= 1 ->
        exists r,
          invocations (log st) = [(chunk_prompt_prefix ++ lit "a b c", demo_model, r)]
          /\ chunk_summaries = []
          /\ forall content,
               r = Content content ->
               summary = strip content /\ trimmed content summary).
Proof.
  apply (successful_responses_are_trimmed
           (collab := scripted demo_data (Some (lit "a b c")))
           demo_url demo_model 2
           [Content (lit "  one "); Content (nl ++ lit "two" ++ nl);
            Content (lit " report " ++ nl)]
           (lit "a b c")).
  - lia.
  - reflexivity.
  - discriminate.
Defined.

(** ** Determinism *)

Section Determinism.

Context {World : Type} {collab : Collaborators World}.

(** The client answers by prompt and model alone. *)
Hypothesis deterministic_client :
  forall prompt model (a b : World),
    fst (client_invoke prompt model a) = fst (client_invoke prompt model b).

Lemma chunk_trace_deterministic (llm_model : str) (chunks : list str) (w w' : World) :
  fst (chunk_trace llm_model chunks w) = fst (chunk_trace llm_model chunks w').
Proof.
  revert w w'. induction chunks as [|chunk rest IH]; intros w w'.
  - reflexivity.
  - cbn [chunk_trace].
    pose proof (deterministic_client (chunk_prompt_prefix ++ chunk) llm_model w w') as Hr.
    destruct (client_invoke (chunk_prompt_prefix ++ chunk) llm_model w) as [r w1].
    destruct (client_invoke (chunk_prompt_prefix ++ chunk) llm_model w') as [r' w1'].
    cbn [fst] in Hr. subst r'.
    specialize (IH w1 w1').
    destruct (chunk_trace llm_model rest w1) as [[ss evs] w2].
    destruct (chunk_trace llm_model rest w1') as [[ss' evs'] w2'].
    cbn [fst] in *. now injection IH as -> ->.
Qed.

(** From the same captions, video data and log, the summarisation block
    gives the same outcome and the same events whatever the world. *)
Lemma summarize_captions_deterministic (cfg : VideoSummarizer)
    (_url llm_model : str) (chunker_limit : nat) (video_data : str)
    (video_captions : option str) (st st' : PState) :
  log st = log st' ->
  fst (summarize_captions cfg _url llm_model chunker_limit video_data
         video_captions st)
  = fst (summarize_captions cfg _url llm_model chunker_limit video_data
           video_captions st')
  /\ log (snd (summarize_captions cfg _url llm_model chunker_limit video_data
                 video_captions st))
     = log (snd (summarize_captions cfg _url llm_model chunker_limit video_data
                   video_captions st')).
Proof.
  intros Hlog.
  destruct (truthy video_captions) eqn:Hc.
  - destruct video_captions as [captions|]; [|discriminate Hc].
    destruct (chunk_words (split captions) chunker_limit) as [[n chunks]|e] eqn:Hw.
    + destruct (Nat.lt_ge_cases 1 n) as [Hn|Hn].
      * destruct (summarize_captions_multi cfg _url llm_model chunker_limit
                    video_data captions st n chunks Hc Hw Hn)
          as (ss & evs & w2 & r & w3 & Et & Ei & ->).
        destruct (summarize_captions_multi cfg _url llm_model chunker_limit
                    video_data captions st' n chunks Hc Hw Hn)
          as (ss' & evs' & w2' & r' & w3' & Et' & Ei' & ->).
        pose proof (chunk_trace_deterministic llm_model chunks (world st) (world st'))
          as Hd.
        rewrite Et, Et' in Hd. cbn [fst] in Hd. injection Hd as <- <-.
        pose proof (deterministic_client
                      (final_prompt_prefix
                       ++ add_summaries (video_info_head _url video_data) 1 ss)
                      llm_model w2 w2') as Hr.
        rewrite Ei, Ei' in Hr. cbn [fst] in Hr. subst r'.
        cbn [fst snd log]. now rewrite Hlog.
      * destruct (summarize_captions_single cfg _url llm_model chunker_limit
                    video_data captions st n chunks Hc Hw Hn)
          as (r & w1 & Ei & ->).
        destruct (summarize_captions_single cfg _url llm_model chunker_limit
                    video_data captions st' n chunks Hc Hw Hn)
          as (r' & w1' & Ei' & ->).
        pose proof (deterministic_client (chunk_prompt_prefix ++ captions)
                      llm_model (world st) (world st')) as Hr.
        rewrite Ei, Ei' in Hr. cbn [fst] in Hr. subst r'.
        cbn [fst snd log]. now rewrite Hlog.
    + unfold summarize_captions. rewrite Hc. cbn [negb].
      unfold bind, lift. rewrite Hw. cbn [fst snd]. now split.
  - rewrite !summarize_captions_absent by assumption.
    cbn [fst snd log]. now rewrite Hlog.
Qed.

End Determinism.

(** C8: given the same caption text, chunk-size limit, model identifier and
    video reference, and collaborators that answer alike (the same response
    for the same prompt and model), any two runs give the same chunks, the
    same chunk summaries and the same final report. *)
Theorem rerun_gives_identical_report {World : Type} {collab : Collaborators World}
    (_url llm_model : str) (chunker_limit : nat) (w1 w2 : World) :
  (forall prompt model (a b : World),
     fst (client_invoke prompt model a) = fst (client_invoke prompt model b)) ->
  video_data_of _url w1 = video_data_of _url w2 ->
  captions_of _url w1 = captions_of _url w2 ->
  fst (run _url llm_model chunker_limit w1) = fst (run _url llm_model chunker_limit w2)
  /\ log (snd (run _url llm_model chunker_limit w1))
     = log (snd (run _url llm_model chunker_limit w2)).
Proof.
  intros Hdet Hdata Hcaps. rewrite !run_unfold, Hdata, Hcaps.
  now apply summarize_captions_deterministic.
Qed.

(** Two runs of the echoing client, started in different worlds. *)
Lemma rerun_gives_identical_report_witness :
  fst (run (collab := echoing demo_data (Some (lit "a b c"))) demo_url demo_model 2 0)
  = fst (run (collab := echoing demo_data (Some (lit "a b c"))) demo_url demo_model 2 7)
  /\ log (snd (run (collab := echoing demo_data (Some (lit "a b c")))
                 demo_url demo_model 2 0))
     = log (snd (run (collab := echoing demo_data (Some (lit "a b c")))
                   demo_url demo_model 2 7)).
Proof.
  apply (rerun_gives_identical_report
           (collab := echoing demo_data (Some (lit "a b c")))
           demo_url demo_model 2 0 7).
  - intros prompt model a b. reflexivity.
  - reflexivity.
  - reflexivity.
Defined.

(** ** What the prompts are made of *)

(** C10: the report configuration returned by [get_video_summarizer] never
    enters a prompt: the summarisation block does the same whatever
    configuration is in scope, and every prompt of every run is one of the
    two literal prefixes followed by a line break and then the chunk text,
    the combined summaries text, or the raw captions. *)
Theorem prompts_are_prefix_and_text {World : Type} {collab : Collaborators World}
    (_url llm_model : str) (chunker_limit : nat) (w : World) :
  0 < chunker_limit ->
  (forall cfg cfg' video_data video_captions st,
     summarize_captions cfg _url llm_model chunker_limit video_data video_captions st
     = summarize_captions cfg' _url llm_model chunker_limit video_data video_captions st)
  /\ exists outcome st,
       run _url llm_model chunker_limit w = (Ok outcome, st)
       /\ forall p, In p (prompts (log st)) ->
            exists chunks chunk_summaries summary captions,
              outcome = Summarized chunks chunk_summaries summary
              /\ captions_of _url w = Some captions
              /\ ((exists chunk,
                     In chunk chunks
                     /\ p = lit "Summarize the following video captions:" ++ nl ++ chunk)
                  \/ p = lit "Summarize the following captions:" ++ nl
                         ++ add_summaries
                              (video_info_head _url (video_data_of _url w)) 1
                              chunk_summaries
                  \/ p = lit "Summarize the following video captions:" ++ nl ++ captions).
Proof.
  intros HL. split; [reflexivity|].
  destruct (truthy (captions_of _url w)) eqn:Hc.
  - destruct (captions_of _url w) as [[|a c]|] eqn:Hcap; try discriminate Hc.
    destruct (run_present _url llm_model chunker_limit w (a :: c) HL Hcap
                ltac:(discriminate))
      as (chunks & Hw & [[Hn (ss & evs & w2 & r & w3 & Et & Ei & Er)]
                        | [Hn (r & w1 & Ei & Er)]]).
    + eexists _, _. split; [exact Er|]. cbn [log].
      intros p Hp. exists chunks, ss, (final_result r), (a :: c).
      split; [reflexivity|]. split; [reflexivity|].
      rewrite prompts_app, (chunk_trace_prompts _ _ _ _ _ _ Et) in Hp.
      apply in_app_or in Hp as [Hp|Hp].
      * left. apply in_map_iff in Hp as (chunk & <- & Hin).
        exists chunk. split; [exact Hin|].
        unfold chunk_prompt_prefix. now rewrite <- app_assoc.
      * right. left. destruct Hp as [<-|[]].
        unfold final_prompt_prefix. now rewrite <- app_assoc.
    + eexists _, _. split; [exact Er|]. cbn [log].
      intros p Hp. exists chunks, [], (direct_result r), (a :: c).
      split; [reflexivity|]. split; [reflexivity|].
      right. right. destruct Hp as [<-|[]].
      unfold chunk_prompt_prefix. now rewrite <- app_assoc.
  - eexists _, _. split; [now apply run_absent|]. intros p [].
Qed.

(** The prompts of a run over three chunks. *)
Lemma prompts_are_prefix_and_text_witness :
  (forall cfg cfg' video_data video_captions st,
     summarize_captions (collab := echoing demo_data (Some (lit "a b c")))
       cfg demo_url demo_model 1 video_data video_captions st
     = summarize_captions (collab := echoing demo_data (Some (lit "a b c")))
         cfg' demo_url demo_model 1 video_data video_captions st)
  /\ exists outcome st,
       run (collab := echoing demo_data (Some (lit "a b c"))) demo_url demo_model 1 0
       = (Ok outcome, st)
       /\ forall p, In p (prompts (log st)) ->
            exists chunks chunk_summaries summary captions,
              outcome = Summarized chunks chunk_summaries summary
              /\ Some (lit "a b c") = Some captions
              /\ ((exists chunk,
                     In chunk chunks
                     /\ p = lit "Summarize the following video captions:" ++ nl ++ chunk)
                  \/ p = lit "Summarize the following captions:" ++ nl
                         ++ add_summaries (video_info_head demo_url demo_data) 1
                              chunk_summaries
                  \/ p = lit "Summarize the following video captions:" ++ nl ++ captions).
Proof.
  apply (prompts_are_prefix_and_text
           (collab := echoing demo_data (Some (lit "a b c")))
           demo_url demo_model 1 0).
  lia.
Defined.

(** ** Captions that are absent, empty or blank *)

(** C3, as the code has it: when the captions are absent or the empty
    string, the run stops at the guard: it shows the could-not-parse message,
    cuts no chunk and sends no completion request.  Captions without any
    word, whatever their length, are cut into zero chunks. *)
Theorem absent_captions_stop_the_run {World : Type} {collab : Collaborators World}
    (_url llm_model : str) (chunker_limit : nat) (w : World) :
  captions_of _url w = None \/ captions_of _url w = Some [] ->
  (exists st,
     run _url llm_model chunker_limit w = (Ok CouldNotParse, st)
     /\ log st = [Shown sorry_message]
     /\ invocations (log st) = [])
  /\ (forall captions,
        0 < chunker_limit -> split captions = [] ->
        chunk_words (split captions) chunker_limit = Ok (0, [])).
Proof.
  intros Hc. apply truthy_false in Hc. split.
  - eexists. split; [now apply run_absent|]. now split.
  - intros captions HL Hs. rewrite Hs.
    rewrite (chunk_words_closed [] chunker_limit HL). simpl.
    now rewrite ceil_div_0.
Qed.

(** The caption source returns the empty string. *)
Lemma absent_captions_stop_the_run_witness :
  (exists st,
     run (collab := scripted demo_data (Some [])) demo_url demo_model 4500
       [Content (lit "report")]
     = (Ok CouldNotParse, st)
     /\ log st = [Shown sorry_message]
     /\ invocations (log st) = [])
  /\ (forall captions,
        0 < 4500 -> split captions = [] ->
        chunk_words (split captions) 4500 = Ok (0, [])).
Proof.
  apply (absent_captions_stop_the_run
           (collab := scripted demo_data (Some [])) demo_url demo_model 4500
           [Content (lit "report")]).
  right. reflexivity.
Defined.

(** C3, as stated, fails on captions that hold a single blank: they have no
    word, yet the run does not end in the could-not-parse outcome and sends
    one completion request, over the blank captions. *)
Lemma blank_captions_reach_the_client :
  split (lit " ") = []
  /\ ~ (fst blank_run = Ok CouldNotParse /\ invocations (log (snd blank_run)) = [])
  /\ fst blank_run = Ok (Summarized [] [] (lit "report"))
  /\ prompts (log (snd blank_run)) = [chunk_prompt_prefix ++ lit " "].
Proof.
  split; [reflexivity|]. split.
  - intros [E _]. vm_compute in E. discriminate E.
  - split; vm_compute; reflexivity.
Qed.

(** ** The context of the chunk prompts *)

(** C2, evaluated on captions of 1001 words with a limit of 1000: each of
    the two chunks gets one request whose prompt holds the chunk's text, but
    neither prompt holds the video data; only the aggregate prompt does. *)
Theorem chunk_prompts_leave_out_video_data :
  exists chunks chunk_summaries summary st,
    long_run = (Ok (Summarized chunks chunk_summaries summary), st)
    /\ map (fun chunk => length (split chunk)) chunks = [1000; 1]
    /\ firstn 2 (prompts (log st)) = map (app chunk_prompt_prefix) chunks
    /\ map (contains demo_data) (prompts (log st)) = [false; false; true].
Proof.
  unfold long_run. eexists _, _, _, _.
  split; [vm_compute; reflexivity|].
  repeat split; vm_compute; reflexivity.
Qed.

(** * Further properties of the code *)

(** ** [truncate_text] *)

Section TruncateFacts.

Lemma Forall_firstn {A} (P : A -> Prop) (n : nat) (xs : list A) :
  Forall P xs -> Forall P (firstn n xs).
Proof.
  intros H. rewrite <- (firstn_skipn n xs) in H.
  now apply Forall_app in H as [H _].
Qed.

Lemma Forall_slice_to {A} (P : A -> Prop) (j : Z) (xs : list A) :
  Forall P xs -> Forall P (slice_to j xs).
Proof.
  intros H. unfold slice_to. destruct (0 <=? j)%Z; now apply Forall_firstn.
Qed.

(** The words of the result are the words the slice keeps. *)
Lemma split_truncate_text (text : str) (words : Z) :
  split (truncate_text text words) = slice_to words (split text).
Proof.
  unfold truncate_text. apply split_join, Forall_slice_to, split_words.
Qed.

Lemma length_join_firstn (n : nat) (ws : list str) :
  length (join space (firstn n ws)) <= length (join space ws).
Proof.
  revert n. induction ws as [|w ws IH]; intros n.
  - now rewrite firstn_nil.
  - destruct n as [|n]; [simpl; lia|].
    specialize (IH n). cbn [firstn].
    destruct ws as [|w' ws].
    + rewrite firstn_nil. simpl. lia.
    + destruct n as [|n].
      * cbn [firstn join]. rewrite !length_app. lia.
      * change (join space (w :: w' :: ws))
          with (w ++ space ++ join space (w' :: ws)).
        change (join space (w :: firstn (S n) (w' :: ws)))
          with (w ++ space ++ join space (firstn (S n) (w' :: ws))).
        rewrite !length_app. lia.
Qed.

(** Splitting and joining with single blanks never lengthens a text. *)
Lemma length_join_split_from (s cur : str) :
  length (join space (split_from cur s)) <= length cur + length s.
Proof.
  revert cur. induction s as [|c s IH]; intros cur.
  - cbn [split_from]. destruct cur; simpl; [lia|].
    rewrite length_app, length_rev. simpl. lia.
  - cbn [split_from]. destruct (isspace c).
    + destruct cur as [|a cur].
      * specialize (IH []). simpl in *. lia.
      * specialize (IH []).
        destruct (split_from [] s) as [|w ws] eqn:E.
        -- cbn [join]. rewrite length_rev. simpl. lia.
        -- change (join space (rev (a :: cur) :: w :: ws))
             with (rev (a :: cur) ++ space ++ join space (w :: ws)).
           rewrite !length_app, length_rev. simpl in *. lia.
    + specialize (IH (c :: cur)). simpl in *. lia.
Qed.

End TruncateFacts.

(** X1: for a non-negative count, the result of [truncate_text] holds
    exactly the first [words] words of the text (all of them when the text
    has fewer), joined by single blanks. *)
Theorem truncate_text_keeps_leading_words (text : str) (words : Z) :
  (0 <= words)%Z ->
  split (truncate_text text words) = firstn (Z.to_nat words) (split text)
  /\ length (split (truncate_text text words))
     = Nat.min (Z.to_nat words) (length (split text))
  /\ truncate_text text words = join space (firstn (Z.to_nat words) (split text)).
Proof.
  intros Hw.
  assert (E : slice_to words (split text) = firstn (Z.to_nat words) (split text)).
  { unfold slice_to. destruct (Z.leb_spec 0 words); [reflexivity | lia]. }
  rewrite split_truncate_text, E. split; [reflexivity|].
  split; [apply length_firstn|].
  unfold truncate_text. now rewrite E.
Qed.

Lemma truncate_text_keeps_leading_words_witness :
  split (truncate_text (lit " one  two three ") 2)
  = firstn (Z.to_nat 2) (split (lit " one  two three "))
  /\ length (split (truncate_text (lit " one  two three ") 2))
     = Nat.min (Z.to_nat 2) (length (split (lit " one  two three ")))
  /\ truncate_text (lit " one  two three ") 2
     = join space (firstn (Z.to_nat 2) (split (lit " one  two three "))).
Proof.
  apply (truncate_text_keeps_leading_words (lit " one  two three ") 2). lia.
Defined.

(** X2: for a negative count, [truncate_text] drops the last [-words] words
    of the text and keeps the others; when the text has no more than
    [-words] words the result is the empty string. *)
Theorem truncate_text_negative_drops_trailing_words (text : str) (words : Z) :
  (words < 0)%Z ->
  (exists dropped,
     split text = split (truncate_text text words) ++ dropped
     /\ length dropped = Nat.min (Z.to_nat (- words)) (length (split text)))
  /\ (length (split text) <= Z.to_nat (- words) -> truncate_text text words = []).
Proof.
  intros Hw.
  assert (E : slice_to words (split text)
              = firstn (length (split text) - Z.to_nat (- words)) (split text)).
  { unfold slice_to. destruct (Z.leb_spec 0 words); [lia | reflexivity]. }
  split.
  - exists (skipn (length (split text) - Z.to_nat (- words)) (split text)).
    rewrite split_truncate_text, E. split.
    + now rewrite firstn_skipn.
    + rewrite length_skipn. lia.
  - intros Hlen. unfold truncate_text. rewrite E.
    replace (length (split text) - Z.to_nat (- words)) with 0 by lia.
    reflexivity.
Qed.

Lemma truncate_text_negative_drops_trailing_words_witness :
  (exists dropped,
     split (lit "one two three")
     = split (truncate_text (lit "one two three") (-1)) ++ dropped
     /\ length dropped
        = Nat.min (Z.to_nat (- (-1))) (length (split (lit "one two three"))))
  /\ (length (split (lit "one two three")) <= Z.to_nat (- (-1)) ->
      truncate_text (lit "one two three") (-1) = []).
Proof.
  apply (truncate_text_negative_drops_trailing_words (lit "one two three") (-1)). lia.
Defined.

(** X3: truncating twice with non-negative counts is truncating once with
    the smaller count; in particular truncating again with the same count
    changes nothing. *)
Theorem truncate_text_twice (text : str) (n m : Z) :
  (0 <= n)%Z -> (0 <= m)%Z ->
  truncate_text (truncate_text text n) m = truncate_text text (Z.min n m)
  /\ truncate_text (truncate_text text n) n = truncate_text text n.
Proof.
  intros Hn Hm.
  assert (G : forall a b, (0 <= a)%Z -> (0 <= b)%Z ->
                truncate_text (truncate_text text a) b = truncate_text text (Z.min a b)).
  { intros a b Ha Hb. unfold truncate_text at 1.
    rewrite split_truncate_text. unfold truncate_text, slice_to.
    destruct (Z.leb_spec 0 a); [|lia]. destruct (Z.leb_spec 0 b); [|lia].
    destruct (Z.leb_spec 0 (Z.min a b)); [|lia].
    rewrite firstn_firstn, Z2Nat.inj_min. f_equal. f_equal. lia. }
  split; [now apply G|]. rewrite G by assumption. now rewrite Z.min_id.
Qed.

Lemma truncate_text_twice_witness :
  truncate_text (truncate_text (lit "a b  c d e") 4) 2
  = truncate_text (lit "a b  c d e") (Z.min 4 2)
  /\ truncate_text (truncate_text (lit "a b  c d e") 4) 4
     = truncate_text (lit "a b  c d e") 4.
Proof.
  apply (truncate_text_twice (lit "a b  c d e") 4 2); lia.
Defined.

(** X4: when the count is at least the number of words, [truncate_text]
    gives the whole text with its whitespace normalised, and a text that is
    already made of words joined by single blanks comes back unchanged. *)
Theorem truncate_text_within_count (ws : list str) (text : str) (words : Z) :
  (Z.of_nat (length (split text)) <= words)%Z ->
  Forall word ws ->
  (Z.of_nat (length ws) <= words)%Z ->
  truncate_text text words = join space (split text)
  /\ truncate_text (join space ws) words = join space ws.
Proof.
  intros Ht Hws Hlen.
  assert (G : forall xs : list str, (Z.of_nat (length xs) <= words)%Z ->
                slice_to words xs = xs).
  { intros xs Hxs. unfold slice_to.
    destruct (Z.leb_spec 0 words); [|lia]. apply firstn_all2. lia. }
  unfold truncate_text. split.
  - now rewrite G.
  - rewrite split_join by assumption. now rewrite G.
Qed.

Lemma truncate_text_within_count_witness :
  truncate_text (lit " a  b ") 5 = join space (split (lit " a  b "))
  /\ truncate_text (join space [lit "a"; lit "b"; lit "c"]) 5
     = join space [lit "a"; lit "b"; lit "c"].
Proof.
  apply (truncate_text_within_count [lit "a"; lit "b"; lit "c"] (lit " a  b ") 5).
  - vm_compute. discriminate.
  - apply (split_words (lit "a b c")).
  - vm_compute. discriminate.
Defined.

(** X5: the result of [truncate_text] is never longer than the text,
    whatever the count. *)
Theorem truncate_text_never_longer (text : str) (words : Z) :
  length (truncate_text text words) <= length text.
Proof.
  unfold truncate_text, slice_to.
  pose proof (length_join_split_from text []) as H. fold (split text) in H.
  simpl in H.
  destruct (0 <=? words)%Z;
    eapply Nat.le_trans; try apply length_join_firstn; exact H.
Qed.

(** ** More on the pipeline *)

Section MorePipelineFacts.

Context {World : Type} {collab : Collaborators World}.

Lemma shown_app (a b : list Event) : shown (a ++ b) = shown a ++ shown b.
Proof. unfold shown. apply flat_map_app. Qed.

(** The chunk loop displays each summary it stores, and every request it
    sends carries the model it was given. *)
Lemma chunk_trace_shown (llm_model : str) (chunks : list str) (w : World)
    (ss : list str) (evs : list Event) (w2 : World) :
  chunk_trace llm_model chunks w = (ss, evs, w2) ->
  shown evs = ss
  /\ Forall (fun call => snd (fst call) = llm_model) (invocations evs).
Proof.
  revert w ss evs w2. induction chunks as [|chunk rest IH]; intros w ss evs w2 E.
  - injection E as <- <- _. split; constructor.
  - cbn [chunk_trace] in E.
    destruct (client_invoke (chunk_prompt_prefix ++ chunk) llm_model w) as [r w1].
    destruct (chunk_trace llm_model rest w1) as [[ss' evs'] w2'] eqn:E'.
    injection E as <- <- _. apply IH in E' as [Hs Hm].
    cbn [shown invocations flat_map app]. fold (shown evs') (invocations evs').
    split; [now rewrite Hs | now constructor].
Qed.

(** With a limit of zero the loop of line 134 raises before any request. *)
Lemma run_zero_limit (_url llm_model : str) (w : World) :
  truthy (captions_of _url w) = true ->
  run _url llm_model 0 w
  = (Exn (lit "range() arg 3 must not be zero"),
     {| world := world_after_fetch _url w; log := [] |}).
Proof.
  intros Hc. rewrite run_unfold.
  destruct (captions_of _url w) as [captions|]; [|discriminate Hc].
  unfold summarize_captions. rewrite Hc. reflexivity.
Qed.

Lemma join_app (sep : str) (a b : list str) :
  a <> [] -> b <> [] ->
  join sep (a ++ b) = join sep a ++ sep ++ join sep b.
Proof.
  intros Ha Hb. induction a as [|x a IH]; [congruence|].
  destruct a as [|y a].
  - destruct b; [congruence | reflexivity].
  - change (join sep ((x :: y :: a) ++ b))
      with (x ++ sep ++ join sep ((y :: a) ++ b)).
    rewrite IH by discriminate.
    change (join sep (x :: y :: a)) with (x ++ sep ++ join sep (y :: a)).
    now rewrite <- !app_assoc.
Qed.

(** Joining joined pieces is joining their concatenation, as long as no
    piece is empty. *)
Lemma join_concat (sep : str) (pieces : list (list str)) :
  Forall (fun p => p <> []) pieces ->
  join sep (map (join sep) pieces) = join sep (concat pieces).
Proof.
  induction pieces as [|p ps IH]; intros Hp; [reflexivity|].
  inversion Hp as [|? ? Hne Hps]; subst. specialize (IH Hps).
  destruct ps as [|q ps].
  - simpl. now rewrite app_nil_r.
  - change (join sep (map (join sep) (p :: q :: ps)))
      with (join sep p ++ sep ++ join sep (map (join sep) (q :: ps))).
    rewrite IH. cbn [concat]. rewrite (join_app sep p (q ++ concat ps)); auto.
    inversion Hps as [|? ? Hq _]; subst.
    destruct q; [congruence | discriminate].
Qed.

End MorePipelineFacts.

(** X6: every completion request of a run, at chunk level, at aggregation
    level or on the direct path, carries the model identifier the run was
    given. *)
Theorem every_request_carries_the_model {World : Type} {collab : Collaborators World}
    (_url llm_model : str) (chunker_limit : nat) (w : World) :
  Forall (fun call => snd (fst call) = llm_model)
         (invocations (log (snd (run _url llm_model chunker_limit w)))).
Proof.
  destruct (truthy (captions_of _url w)) eqn:Hc.
  - destruct chunker_limit as [|L].
    { rewrite run_zero_limit by assumption. constructor. }
    destruct (captions_of _url w) as [[|a c]|] eqn:Hcap; try discriminate Hc.
    destruct (run_present _url llm_model (S L) w (a :: c) ltac:(lia) Hcap
                ltac:(discriminate))
      as (chunks & Hw & [[Hn (ss & evs & w2 & r & w3 & Et & Ei & Er)]
                        | [Hn (r & w1 & Ei & Er)]]); rewrite Er; cbn [snd log].
    + rewrite invocations_app. apply Forall_app. split.
      * apply (chunk_trace_shown _ _ _ _ _ _ Et).
      * repeat constructor.
    + repeat constructor.
  - rewrite run_absent by assumption. constructor.
Qed.

(** X7: in the summarising block (lines 122-192), over non-empty captions
    and with a positive limit, the texts passed to [markdown], which are the
    only [st.write] or [markdown] calls the block makes there, are exactly
    the results it stores: the chunk summaries in chunk order, error
    placeholders included, and then the final summary. *)
Theorem summarising_block_shows_its_results
    {World : Type} {collab : Collaborators World}
    (cfg : VideoSummarizer) (_url llm_model : str) (chunker_limit : nat)
    (video_data captions : str) (w : World) :
  0 < chunker_limit ->
  captions <> [] ->
  exists chunks chunk_summaries summary st,
    chunk_words (split captions) chunker_limit = Ok (length chunks, chunks)
    /\ summarize_captions cfg _url llm_model chunker_limit video_data
         (Some captions) {| world := w; log := [] |}
       = (Ok (Summarized chunks chunk_summaries summary), st)
    /\ length chunk_summaries = (if 1 <? length chunks then length chunks else 0)
    /\ shown (log st) = chunk_summaries ++ [summary].
Proof.
  intros HL Hne.
  pose proof (chunk_words_closed (split captions) chunker_limit HL) as Hw.
  pose proof (chunk_words_counts _ _ _ _ Hw) as Hlen.
  rewrite Hlen in Hw at 1.
  match type of Hw with _ = Ok (_, ?cs) => set (chunks := cs) in * end.
  destruct (Nat.lt_ge_cases 1 (length chunks)) as [Hn|Hn].
  - destruct (summarize_captions_multi cfg _url llm_model chunker_limit video_data
                captions {| world := w; log := [] |} _ _
                (truthy_some captions Hne) Hw Hn)
      as (ss & evs & w2 & r & w3 & Et & Ei & Er).
    eexists chunks, ss, _, _. split; [exact Hw|]. split; [exact Er|].
    cbn [log app]. rewrite shown_app.
    destruct (chunk_trace_shown _ _ _ _ _ _ Et) as [Hs _].
    destruct (chunk_trace_lengths _ _ _ _ _ _ Et) as [Hl _].
    rewrite Hs, (proj2 (Nat.ltb_lt _ _) Hn). split; [exact Hl | reflexivity].
  - destruct (summarize_captions_single cfg _url llm_model chunker_limit video_data
                captions {| world := w; log := [] |} _ _
                (truthy_some captions Hne) Hw Hn)
      as (r & w1 & Ei & Er).
    eexists chunks, [], _, _. split; [exact Hw|]. split; [exact Er|].
    rewrite (proj2 (Nat.ltb_ge _ _) Hn). split; reflexivity.
Qed.

(** Three chunks, the request for the second of which fails. *)
Lemma summarising_block_shows_its_results_witness :
  exists chunks chunk_summaries summary st,
    chunk_words (split (lit "a b c")) 1 = Ok (length chunks, chunks)
    /\ summarize_captions (collab := scripted demo_data (Some (lit "a b c")))
         (get_video_summarizer demo_model true) demo_url demo_model 1 demo_data
         (Some (lit "a b c"))
         {| world := [Content (lit "first"); Raised (lit "rate limit");
                      Content (lit "third"); Content (lit "report")];
            log := [] |}
       = (Ok (Summarized chunks chunk_summaries summary), st)
    /\ length chunk_summaries = (if 1 <? length chunks then length chunks else 0)
    /\ shown (log st) = chunk_summaries ++ [summary].
Proof.
  apply (summarising_block_shows_its_results
           (collab := scripted demo_data (Some (lit "a b c")))
           (get_video_summarizer demo_model true) demo_url demo_model 1 demo_data
           (lit "a b c")
           [Content (lit "first"); Raised (lit "rate limit");
            Content (lit "third"); Content (lit "report")]).
  - lia.
  - discriminate.
Defined.

(** X8: joining the chunks with single blanks gives the words of the
    transcript joined with single blanks: chunking loses nothing and adds
    nothing but the cut points. *)
Theorem chunks_join_to_the_transcript (words : list str) (chunker_limit : nat) :
  0 < chunker_limit ->
  exists chunks,
    chunk_words words chunker_limit = Ok (length chunks, chunks)
    /\ join space chunks = join space words.
Proof.
  intros HL.
  pose proof (ceil_div_bounds (length words) chunker_limit HL) as HB.
  pose proof (chunk_words_closed words chunker_limit HL) as HC.
  remember (ceil_div (length words) chunker_limit) as N eqn:EN.
  exists (map (fun k => join space
                       (slice (k * chunker_limit) (k * chunker_limit + chunker_limit) words))
              (seq 0 N)).
  rewrite length_map, length_seq. split; [exact HC|].
  rewrite <- (map_map (fun k => slice (k * chunker_limit)
                                  (k * chunker_limit + chunker_limit) words)
                      (join space)).
  rewrite join_concat.
  - rewrite concat_slices by apply HB. reflexivity.
  - apply Forall_map, Forall_forall. intros k Hk. apply in_seq in Hk.
    intros E. apply (f_equal (@length _)) in E.
    rewrite length_slice in E. simpl in E. nia.
Qed.

Lemma chunks_join_to_the_transcript_witness :
  exists chunks,
    chunk_words (split (lit " a b  c d e")) 2 = Ok (length chunks, chunks)
    /\ join space chunks = join space (split (lit " a b  c d e")).
Proof.
  apply (chunks_join_to_the_transcript (split (lit " a b  c d e")) 2). lia.
Defined.



(** ** The session dictionary *)

Section DictFacts.

Lemma str_eqb_eq (a b : str) : Dict.str_eqb a b = true <-> a = b.
Proof.
  unfold Dict.str_eqb. destruct (list_eq_dec N.eq_dec a b); split; congruence.
Qed.

Lemma str_eqb_refl (a : str) : Dict.str_eqb a a = true.
Proof. now apply str_eqb_eq. Qed.

Lemma str_eqb_neq (a b : str) : a <> b -> Dict.str_eqb a b = false.
Proof.
  intros Hne. destruct (Dict.str_eqb a b) eqn:E; [|reflexivity].
  now apply str_eqb_eq in E.
Qed.

Lemma get_set_same (k v : str) (d : Dict.dict) :
  Dict.get k (Dict.set k v d) = Some v.
Proof.
  induction d as [|[k' v'] d IH]; cbn [Dict.set Dict.get].
  - now rewrite str_eqb_refl.
  - destruct (Dict.str_eqb k' k) eqn:E; cbn [Dict.get].
    + now rewrite str_eqb_refl.
    + now rewrite E.
Qed.

Lemma get_set_other (k k' v : str) (d : Dict.dict) :
  k <> k' -> Dict.get k (Dict.set k' v d) = Dict.get k d.
Proof.
  intros Hne. induction d as [|[k0 v0] d IH]; cbn [Dict.set Dict.get].
  - rewrite str_eqb_neq by congruence. reflexivity.
  - destruct (Dict.str_eqb k0 k') eqn:E; cbn [Dict.get].
    + apply str_eqb_eq in E as ->.
      now rewrite !(str_eqb_neq k' k) by congruence.
    + now rewrite IH.
Qed.

Lemma keys_differ : llm_model_key <> youtube_url_key.
Proof. vm_compute. discriminate. Qed.

Lemma track_model_stores (llm_model : str) (session : Dict.dict) :
  Dict.get llm_model_key (snd (track_model llm_model session)) = Some llm_model.
Proof.
  unfold track_model.
  destruct (Dict.get llm_model_key session) as [stored|] eqn:E; cbn [snd].
  - destruct (Dict.str_eqb stored llm_model) eqn:Eq; cbn [negb snd].
    + apply str_eqb_eq in Eq as <-. exact E.
    + apply get_set_same.
  - apply get_set_same.
Qed.

Lemma track_model_keeps_url (llm_model : str) (session : Dict.dict) :
  Dict.get youtube_url_key (snd (track_model llm_model session))
  = Dict.get youtube_url_key session.
Proof.
  pose proof keys_differ as Hk.
  unfold track_model.
  destruct (Dict.get llm_model_key session) as [stored|]; cbn [snd].
  - destruct (Dict.str_eqb stored llm_model); cbn [negb snd];
      [reflexivity | apply get_set_other; congruence].
  - apply get_set_other; congruence.
Qed.

Lemma track_model_settled (llm_model : str) (session : Dict.dict) :
  Dict.get llm_model_key session = Some llm_model ->
  track_model llm_model session = (false, session).
Proof.
  intros E. unfold track_model. rewrite E, str_eqb_refl. reflexivity.
Qed.

Lemma press_buttons_keeps_model (ui : Widgets) (session : Dict.dict) :
  Dict.get llm_model_key (press_buttons ui session)
  = Dict.get llm_model_key session.
Proof.
  pose proof keys_differ as Hk. unfold press_buttons.
  destruct (generate_report ui), (intro_button ui), (agents_button ui),
    (accessible_button ui);
    repeat rewrite get_set_other by assumption; reflexivity.
Qed.

Lemma press_buttons_keeps_url (ui : Widgets) (session : Dict.dict) (u : str) :
  Dict.get youtube_url_key session = Some u ->
  exists u', Dict.get youtube_url_key (press_buttons ui session) = Some u'.
Proof.
  intros E. unfold press_buttons.
  destruct (generate_report ui), (intro_button ui), (agents_button ui),
    (accessible_button ui);
    eexists; first [apply get_set_same | exact E].
Qed.

Lemma press_buttons_idle (ui : Widgets) (session : Dict.dict) :
  generate_report ui = false -> intro_button ui = false ->
  agents_button ui = false -> accessible_button ui = false ->
  press_buttons ui session = session.
Proof. intros H1 H2 H3 H4. unfold press_buttons. now rewrite H1, H2, H3, H4. Qed.

End DictFacts.

(** ** Runs of the script *)

Section ScriptFacts.

Context {World : Type} {collab : Collaborators World}.

(** The session a run leaves: the model is tracked, and unless the run
    stopped for a rerun the buttons were applied. *)
Lemma main_session (ui : Widgets) (session : Dict.dict) (st : PState) :
  snd (fst (main ui session st))
  = if fst (track_model (selected_model ui) session)
    then snd (track_model (selected_model ui) session)
    else press_buttons ui (snd (track_model (selected_model ui) session)).
Proof.
  unfold main.
  destruct (track_model (selected_model ui) session) as [[|] s1]; cbn [fst snd];
    [reflexivity|].
  destruct (Dict.get youtube_url_key (press_buttons ui s1)) as [u|].
  - destruct (summarize_video u (selected_model ui) (slider_value ui) _)
      as [[[|chunks ss summary]|e] st']; try reflexivity.
    destruct (finish ui st'); reflexivity.
  - destruct (finish ui _); reflexivity.
Qed.

Lemma summarize_video_unfold (_url llm_model : str) (chunker_limit : nat)
    (st : PState) :
  summarize_video _url llm_model chunker_limit st
  = summarize_captions (get_video_summarizer llm_model true) _url llm_model
      chunker_limit (video_data_of _url (world st)) (captions_of _url (world st))
      {| world := world_after_fetch _url (world st); log := log st |}.
Proof.
  unfold summarize_video, bind, fetch_video_data, fetch_video_captions,
    video_data_of, captions_of, world_after_fetch.
  destruct (get_youtube_video_data _url (world st)) as [d w1]. cbn [fst snd world log].
  destruct (get_youtube_video_captions _url w1) as [c w2]. reflexivity.
Qed.

(** The summarisation block only appends to the log it is given. *)
Lemma summarize_captions_frame (cfg : VideoSummarizer) (_url llm_model : str)
    (chunker_limit : nat) (video_data : str) (video_captions : option str)
    (st : PState) :
  summarize_captions cfg _url llm_model chunker_limit video_data video_captions st
  = (fst (summarize_captions cfg _url llm_model chunker_limit video_data
            video_captions {| world := world st; log := [] |}),
     {| world := world (snd (summarize_captions cfg _url llm_model chunker_limit
                               video_data video_captions
                               {| world := world st; log := [] |}));
        log := log st
               ++ log (snd (summarize_captions cfg _url llm_model chunker_limit
                              video_data video_captions
                              {| world := world st; log := [] |})) |}).
Proof.
  set (st0 := {| world := world st; log := [] |}).
  destruct (truthy video_captions) eqn:Hc.
  - destruct video_captions as [captions|]; [|discriminate Hc].
    destruct (chunk_words (split captions) chunker_limit) as [[n chunks]|e] eqn:Hw.
    + destruct (Nat.lt_ge_cases 1 n) as [Hn|Hn].
      * destruct (summarize_captions_multi cfg _url llm_model chunker_limit
                    video_data captions st n chunks Hc Hw Hn)
          as (ss & evs & w2 & r & w3 & Et & Ei & ->).
        destruct (summarize_captions_multi cfg _url llm_model chunker_limit
                    video_data captions st0 n chunks Hc Hw Hn)
          as (ss' & evs' & w2' & r' & w3' & Et' & Ei' & ->).
        cbn [world st0] in Et'. rewrite Et in Et'. injection Et' as <- <- <-.
        rewrite Ei in Ei'. injection Ei' as <- <-. reflexivity.
      * destruct (summarize_captions_single cfg _url llm_model chunker_limit
                    video_data captions st n chunks Hc Hw Hn)
          as (r & w1 & Ei & ->).
        destruct (summarize_captions_single cfg _url llm_model chunker_limit
                    video_data captions st0 n chunks Hc Hw Hn)
          as (r' & w1' & Ei' & ->).
        cbn [world st0] in Ei'. rewrite Ei in Ei'. injection Ei' as <- <-.
        reflexivity.
    + unfold summarize_captions. rewrite Hc. cbn [negb].
      unfold bind, lift. rewrite Hw. cbn [fst snd world log st0].
      rewrite app_nil_r. now destruct st.
  - rewrite !summarize_captions_absent by assumption. reflexivity.
Qed.

(** Called from any state, the pipeline does what [run] does from a fresh
    log, after what was logged before. *)
Lemma summarize_video_frame (_url llm_model : str) (chunker_limit : nat)
    (st : PState) :
  summarize_video _url llm_model chunker_limit st
  = (fst (run _url llm_model chunker_limit (world st)),
     {| world := world (snd (run _url llm_model chunker_limit (world st)));
        log := log st ++ log (snd (run _url llm_model chunker_limit (world st))) |}).
Proof.
  rewrite summarize_video_unfold, summarize_captions_frame, run_unfold.
  reflexivity.
Qed.

End ScriptFacts.

Section ScriptRuns.

Context {World : Type} {collab : Collaborators World}.

(** A run that is not stopped by a model change and finds a URL in the
    session, by outcome of the pipeline on that URL. *)
Lemma main_with_url (ui : Widgets) (session : Dict.dict) (st : PState) (u : str) :
  fst (track_model (selected_model ui) session) = false ->
  Dict.get youtube_url_key
    (press_buttons ui (snd (track_model (selected_model ui) session))) = Some u ->
  main ui session st
  = let r := run u (selected_model ui) (slider_value ui) (world st) in
    let session' := press_buttons ui (snd (track_model (selected_model ui) session)) in
    let evs := log st ++ [Shown (lit "## Trending Videos")] ++ log (snd r) in
    match fst r with
    | Ok CouldNotParse =>
        (Ok Completed, session', {| world := world (snd r); log := evs |})
    | Ok (Summarized _ _ _) =>
        (Ok (if restart_button ui then Rerun else Completed), session',
         {| world := world (snd r); log := evs ++ [Shown (lit "---")] |})
    | Exn e => (Exn e, session', {| world := world (snd r); log := evs |})
    end.
Proof.
  intros Ht Hu. unfold main.
  destruct (track_model (selected_model ui) session) as [rerun s1].
  cbn [fst snd] in *. subst rerun. rewrite Hu.
  rewrite summarize_video_frame. cbn [world log]. cbv zeta.
  destruct (fst (run u (selected_model ui) (slider_value ui) (world st)))
    as [[|chunks ss summary]|e]; rewrite <- ?app_assoc; try reflexivity.
  unfold finish. cbn [world log].
  destruct (restart_button ui); now rewrite <- !app_assoc.
Qed.

End ScriptRuns.

(** X10: after any run of the script, whether it completes, stops for a
    rerun or raises, the session holds the model of the select box, and a
    video URL that was in the session is still there (the same one when no
    URL button was pressed). *)
Theorem session_after_a_run {World : Type} {collab : Collaborators World}
    (ui : Widgets) (session : Dict.dict) (st : PState) :
  Dict.get llm_model_key (snd (fst (main ui session st))) = Some (selected_model ui)
  /\ (forall u,
        Dict.get youtube_url_key session = Some u ->
        (exists u', Dict.get youtube_url_key (snd (fst (main ui session st))) = Some u')
        /\ (generate_report ui = false -> intro_button ui = false ->
            agents_button ui = false -> accessible_button ui = false ->
            Dict.get youtube_url_key (snd (fst (main ui session st))) = Some u)).
Proof.
  rewrite main_session.
  pose proof (track_model_stores (selected_model ui) session) as Hm.
  pose proof (track_model_keeps_url (selected_model ui) session) as Hu.
  destruct (fst (track_model (selected_model ui) session)).
  - split; [exact Hm|]. intros u E. rewrite Hu. split; [now exists u | now intros].
  - split; [now rewrite press_buttons_keeps_model|].
    intros u E. rewrite <- Hu in E. split.
    + now apply press_buttons_keeps_url with (u := u).
    + intros H1 H2 H3 H4. now rewrite press_buttons_idle.
Qed.

(** X11: a rerun settles: once the script has run, running it again with
    the same model selected and the Restart button not pressed never asks
    for another rerun. *)
Theorem rerun_settles {World : Type} {collab : Collaborators World}
    (ui ui' : Widgets) (session : Dict.dict) (st st' : PState) :
  selected_model ui' = selected_model ui ->
  restart_button ui' = false ->
  fst (fst (main ui' (snd (fst (main ui session st))) st')) <> Ok Rerun.
Proof.
  intros Hm Hr.
  assert (Hs : Dict.get llm_model_key (snd (fst (main ui session st)))
               = Some (selected_model ui')).
  { rewrite Hm, main_session.
    pose proof (track_model_stores (selected_model ui) session) as Hst.
    destruct (fst (track_model (selected_model ui) session));
      [exact Hst | now rewrite press_buttons_keeps_model]. }
  unfold main at 1. rewrite (track_model_settled _ _ Hs).
  destruct (Dict.get youtube_url_key _) as [u|].
  - destruct (summarize_video u (selected_model ui') (slider_value ui') _)
      as [[[|chunks ss summary]|e] st'']; cbn [fst]; try discriminate.
    unfold finish. rewrite Hr. discriminate.
  - unfold finish. rewrite Hr. discriminate.
Qed.

(** After a change of model, the next run of the same selection. *)
Lemma rerun_settles_witness :
  fst (fst (main (collab := echoing demo_data (Some (lit "a b c")))
              {| selected_model := lit "mixtral-8x7b-32768"; slider_value := 1000;
                 video_url_input := []; generate_report := false;
                 intro_button := false; agents_button := false;
                 accessible_button := false; restart_button := false |}
              (snd (fst (main (collab := echoing demo_data (Some (lit "a b c")))
                           {| selected_model := lit "mixtral-8x7b-32768";
                              slider_value := 1000;
                              video_url_input := []; generate_report := false;
                              intro_button := false; agents_button := false;
                              accessible_button := false; restart_button := true |}
                           [(llm_model_key, demo_model); (youtube_url_key, demo_url)]
                           {| world := 0; log := [] |})))
              {| world := 0; log := [] |}))
  <> Ok Rerun.
Proof.
  apply (rerun_settles (collab := echoing demo_data (Some (lit "a b c")))); reflexivity.
Defined.

(** X12: with no video URL in the session and no URL button pressed, a run
    calls no collaborator: the world is untouched and no request is sent;
    unless a model change asks for a rerun, it shows the request for a URL. *)
Theorem without_a_url_nothing_is_fetched {World : Type} {collab : Collaborators World}
    (ui : Widgets) (session : Dict.dict) (st : PState) :
  Dict.get youtube_url_key session = None ->
  generate_report ui = false -> intro_button ui = false ->
  agents_button ui = false -> accessible_button ui = false ->
  world (snd (main ui session st)) = world st
  /\ invocations (log (snd (main ui session st))) = invocations (log st)
  /\ Dict.get youtube_url_key (snd (fst (main ui session st))) = None
  /\ (fst (track_model (selected_model ui) session) = true
      /\ main ui session st
         = (Ok Rerun, snd (track_model (selected_model ui) session), st)
      \/ fst (track_model (selected_model ui) session) = false
         /\ fst (fst (main ui session st))
            = Ok (if restart_button ui then Rerun else Completed)
         /\ shown (log (snd (main ui session st)))
            = shown (log st)
              ++ [lit "## Trending Videos"; provide_url_message; lit "---"]).
Proof.
  intros Hu H1 H2 H3 H4.
  pose proof (track_model_keeps_url (selected_model ui) session) as Hk.
  rewrite Hu in Hk. unfold main.
  destruct (track_model (selected_model ui) session) as [[|] s1]; cbn [fst snd] in *.
  - repeat split; auto.
  - rewrite press_buttons_idle by assumption. rewrite Hk.
    unfold finish. cbn [world log].
    destruct (restart_button ui); cbn [fst snd world log];
      rewrite <- !app_assoc, invocations_app, shown_app; cbn [app];
      (repeat split; [now rewrite app_nil_r | exact Hk
                     | right; repeat split; reflexivity]).
Qed.

(** A first visit: an empty session and nothing pressed. *)
Lemma without_a_url_nothing_is_fetched_witness :
  world (snd (main (collab := echoing demo_data (Some (lit "a b c")))
                {| selected_model := demo_model; slider_value := 4500;
                   video_url_input := []; generate_report := false;
                   intro_button := false; agents_button := false;
                   accessible_button := false; restart_button := false |}
                [] {| world := 0; log := [] |}))
  = 0.
Proof.
  apply (without_a_url_nothing_is_fetched
           (collab := echoing demo_data (Some (lit "a b c")))
           {| selected_model := demo_model; slider_value := 4500;
              video_url_input := []; generate_report := false;
              intro_button := false; agents_button := false;
              accessible_button := false; restart_button := false |}
           [] {| world := 0; log := [] |}); reflexivity.
Defined.

(** A returning visit: the session holds a URL and nothing is pressed. *)
Lemma session_after_a_run_witness :
  Dict.get llm_model_key
    (snd (fst (main (collab := echoing demo_data (Some (lit "a b c")))
                 {| selected_model := demo_model; slider_value := 1000;
                    video_url_input := []; generate_report := false;
                    intro_button := false; agents_button := false;
                    accessible_button := false; restart_button := false |}
                 [(youtube_url_key, demo_url)] {| world := 0; log := [] |})))
  = Some demo_model
  /\ Dict.get youtube_url_key
       (snd (fst (main (collab := echoing demo_data (Some (lit "a b c")))
                    {| selected_model := demo_model; slider_value := 1000;
                       video_url_input := []; generate_report := false;
                       intro_button := false; agents_button := false;
                       accessible_button := false; restart_button := false |}
                    [(youtube_url_key, demo_url)] {| world := 0; log := [] |})))
     = Some demo_url.
Proof.
  destruct (session_after_a_run
              (collab := echoing demo_data (Some (lit "a b c")))
              {| selected_model := demo_model; slider_value := 1000;
                 video_url_input := []; generate_report := false;
                 intro_button := false; agents_button := false;
                 accessible_button := false; restart_button := false |}
              [(youtube_url_key, demo_url)] {| world := 0; log := [] |})
    as [Hm Hu].
  split; [exact Hm|].
  apply (Hu demo_url); reflexivity.
Defined.

(** X13: when the captions of the session's video are absent or empty, the
    run shows the could-not-parse message and returns at once: the Restart
    button is not consulted and the closing rule of the sidebar is not
    drawn.  When there are captions (and the limit is positive) the script
    runs to its end, where Restart asks for a rerun. *)
Theorem restart_is_skipped_after_could_not_parse
    {World : Type} {collab : Collaborators World}
    (ui : Widgets) (session : Dict.dict) (st : PState) (u : str) :
  fst (track_model (selected_model ui) session) = false ->
  Dict.get youtube_url_key
    (press_buttons ui (snd (track_model (selected_model ui) session))) = Some u ->
  (truthy (captions_of u (world st)) = false ->
   fst (fst (main ui session st)) = Ok Completed
   /\ log (snd (main ui session st))
      = log st ++ [Shown (lit "## Trending Videos"); Shown sorry_message])
  /\ (truthy (captions_of u (world st)) = true ->
      0 < slider_value ui ->
      fst (fst (main ui session st))
      = Ok (if restart_button ui then Rerun else Completed)
      /\ last (log (snd (main ui session st))) (Shown []) = Shown (lit "---")).
Proof.
  intros Ht Hu. rewrite (main_with_url ui session st u Ht Hu). cbv zeta. split.
  - intros Hc. rewrite run_absent by assumption. cbn [fst snd log]. now split.
  - intros Hc HL.
    destruct (captions_of u (world st)) as [[|a c]|] eqn:Hcap; try discriminate Hc.
    destruct (run_present u (selected_model ui) (slider_value ui) (world st) (a :: c)
                HL Hcap ltac:(discriminate))
      as (chunks & Hw & [[Hn (ss & evs & w2 & r & w3 & Et & Ei & Er)]
                        | [Hn (r & w1 & Ei & Er)]]);
      rewrite Er; cbn [fst snd log]; (split; [reflexivity|]);
      rewrite !app_assoc; apply last_last.
Qed.

(** Restart pressed on a video without captions. *)
Lemma restart_is_skipped_after_could_not_parse_witness :
  (fst (fst (main (collab := scripted demo_data None)
               {| selected_model := demo_model; slider_value := 4500;
                  video_url_input := demo_url; generate_report := true;
                  intro_button := false; agents_button := false;
                  accessible_button := false; restart_button := true |}
               [] {| world := []; log := [] |}))
   = Ok Completed
   /\ log (snd (main (collab := scripted demo_data None)
                  {| selected_model := demo_model; slider_value := 4500;
                     video_url_input := demo_url; generate_report := true;
                     intro_button := false; agents_button := false;
                     accessible_button := false; restart_button := true |}
                  [] {| world := []; log := [] |}))
      = [] ++ [Shown (lit "## Trending Videos"); Shown sorry_message]).
Proof.
  apply (restart_is_skipped_after_could_not_parse
           (collab := scripted demo_data None)
           {| selected_model := demo_model; slider_value := 4500;
              video_url_input := demo_url; generate_report := true;
              intro_button := false; agents_button := false;
              accessible_button := false; restart_button := true |}
           [] {| world := []; log := [] |} demo_url); reflexivity.
Defined.

(** X14: which video URL the session holds after a run: a run stopped by a
    model change leaves it as it was; otherwise the last pressed of the
    buttons, in the order of the script, decides: a trending button sets its
    own URL and wins over Generate Summary, which stores the typed text as it
    is, empty or not; with no button pressed the URL is kept. *)
Theorem url_after_the_buttons {World : Type} {collab : Collaborators World}
    (ui : Widgets) (session : Dict.dict) (st : PState) :
  Dict.get youtube_url_key (snd (fst (main ui session st)))
  = if fst (track_model (selected_model ui) session)
    then Dict.get youtube_url_key session
    else if accessible_button ui then Some accessible_url
    else if agents_button ui then Some agents_url
    else if intro_button ui then Some intro_url
    else if generate_report ui then Some (video_url_input ui)
    else Dict.get youtube_url_key session.
Proof.
  rewrite main_session.
  pose proof (track_model_keeps_url (selected_model ui) session) as Hu.
  destruct (fst (track_model (selected_model ui) session)); [exact Hu|].
  unfold press_buttons.
  destruct (accessible_button ui); [apply get_set_same|].
  destruct (agents_button ui); [apply get_set_same|].
  destruct (intro_button ui); [apply get_set_same|].
  destruct (generate_report ui); [apply get_set_same | exact Hu].
Qed.
